(** * The chunking core of the code translator: [chunk_code.py]

    A shallow embedding of the call-graph builder, the structural splitter,
    the budget splitter and the chunk assembler, followed by the properties
    of the specification that concern them.

    Python values are modelled as follows.
    - A [str] is the list of its Unicode code points.
    - [len] returns a Python [int], here a [Z].
    - A [for] loop over a list is a [fold_left] of its body over the list,
      the loop's mutable variables being the accumulator.
    - [ast.parse] and [networkx] are libraries: the tree returned by the first
      and the component listing returned by the second are inputs of the
      model, the second constrained by its contract [scc_listing]. *)

From Stdlib Require Import String Ascii List ZArith NArith Bool Lia Relations.
Import ListNotations.
Local Open Scope Z_scope.

(** ** Python strings *)

Definition char := N.
Definition str := list char.

Definition LF : char := 10%N.
Definition CR : char := 13%N.

(** A literal of the source, as code points. *)
Definition py (s : string) : str := map N_of_ascii (list_ascii_of_string s).

(** [len(x)] *)
Definition len {A : Type} (l : list A) : Z := Z.of_nat (length l).

(** Truth value of a list or string: [if buffer:] *)
Definition truthy {A : Type} (l : list A) : bool :=
  match l with [] => false | _ :: _ => true end.

(** The characters [str.splitlines] breaks at. *)
Definition is_linebreak (c : char) : bool :=
  existsb (N.eqb c) [10; 11; 12; 13; 28; 29; 30; 133; 8232; 8233]%N.

(** The characters [str.strip] removes. *)
Definition is_space (c : char) : bool :=
  existsb (N.eqb c)
    [9; 10; 11; 12; 13; 28; 29; 30; 31; 32; 133; 160; 5760; 8232; 8233;
     8239; 8287; 12288]%N
  || ((8192 <=? c)%N && (c <=? 8202)%N).

(** [str.splitlines()], the line being read carried in [cur]: a line ends at
    a line break, [\r\n] counts as one break, and no empty line follows the
    last break. *)
Fixpoint splitlines_from (cur : str) (s : str) : list str :=
  match s with
  | [] => if truthy cur then [cur] else []
  | c :: rest =>
      if is_linebreak c then
        match rest with
        | d :: rest' =>
            if (c =? CR)%N && (d =? LF)%N
            then cur :: splitlines_from [] rest'
            else cur :: splitlines_from [] rest
        | [] => cur :: splitlines_from [] rest
        end
      else splitlines_from (cur ++ [c]) rest
  end.

Definition splitlines (s : str) : list str := splitlines_from [] s.

Fixpoint dropwhile {A : Type} (p : A -> bool) (l : list A) : list A :=
  match l with
  | [] => []
  | x :: r => if p x then dropwhile p r else l
  end.

Definition lstrip (s : str) : str := dropwhile is_space s.
Definition rstrip (s : str) : str := rev (dropwhile is_space (rev s)).

(** [str.strip()] *)
Definition strip (s : str) : str := rstrip (lstrip s).

(** [s.startswith(prefix)] *)
Fixpoint startswith (s prefix : str) : bool :=
  match prefix, s with
  | [], _ => true
  | _ :: _, [] => false
  | p :: prefix', c :: s' => (c =? p)%N && startswith s' prefix'
  end.

(** [s.startswith(tuple)] *)
Definition startswith_any (s : str) (prefixes : list str) : bool :=
  existsb (startswith s) prefixes.

(** [sep.join(parts)] *)
Fixpoint join (sep : str) (parts : list str) : str :=
  match parts with
  | [] => []
  | [x] => x
  | x :: rest => x ++ sep ++ join sep rest
  end.

Definition NL : str := [LF].

(** ** The syntax tree, as the visitor sees it

    [ast.NodeVisitor] dispatches on the class of a node and [generic_visit]
    visits the child nodes in field order.  The builder overrides the visit of
    [FunctionDef] and of [Call]; every other class of node is [Other]. *)

#[local] Set Warnings "-register-all".

Inductive node : Type :=
| FunctionDef (name : str) (children : list node)
| Call (func : node) (args : list node)
| Name (id : str)
| Other (children : list node).

(** A statement of [tree.body], with the text [ast.get_source_segment]
    returns for it. *)
Record stmt : Type := Stmt { ast : node; span : str }.

Definition get_source_segment (source : str) (st : stmt) : str := span st.

(** [isinstance(node, ast.FunctionDef)], with [node.name] *)
Definition function_name (n : node) : option str :=
  match n with FunctionDef name _ => Some name | _ => None end.

Definition is_Name (n : node) : option str :=
  match n with Name id => Some id | _ => None end.

(** ** [nx.DiGraph]: nodes in insertion order, a simple set of edges *)

Definition str_eqb (a b : str) : bool :=
  if list_eq_dec N.eq_dec a b then true else false.

Definition mem (x : str) (l : list str) : bool := existsb (str_eqb x) l.

Definition edge_eqb (e f : str * str) : bool :=
  str_eqb (fst e) (fst f) && str_eqb (snd e) (snd f).

Record DiGraph : Type := Graph { nodes : list str; edges : list (str * str) }.

Definition empty_graph : DiGraph := Graph [] [].

Definition add_node (n : str) (g : DiGraph) : DiGraph :=
  if mem n (nodes g) then g else Graph (nodes g ++ [n]) (edges g).

Definition add_edge (u v : str) (g : DiGraph) : DiGraph :=
  let g := add_node v (add_node u g) in
  if existsb (edge_eqb (u, v)) (edges g) then g
  else Graph (nodes g) (edges g ++ [(u, v)]).

(** ** 1. [DependencyGraphBuilder] *)

Record builder : Type :=
  Builder { graph : DiGraph; current_function : option str }.

Definition new_builder : builder := Builder empty_graph None.

(** Truth value of [self.current_function]: [None] and the empty string are
    false. *)
Definition current_truthy (b : builder) : option str :=
  match current_function b with
  | Some f => if truthy f then Some f else None
  | None => None
  end.

Fixpoint visit (n : node) (b : builder) : builder :=
  match n with
  | FunctionDef name children =>
      (* visit_FunctionDef *)
      let b := Builder (graph b) (Some name) in
      let b := Builder (add_node name (graph b)) (current_function b) in
      fold_left (fun b child => visit child b) children b
  | Call func args =>
      (* visit_Call *)
      let b :=
        match is_Name func, current_truthy b with
        | Some id, Some f => Builder (add_edge f id (graph b)) (current_function b)
        | _, _ => b
        end in
      fold_left (fun b child => visit child b) args (visit func b)
  | Name _ => b
  | Other children =>
      (* generic_visit *)
      fold_left (fun b child => visit child b) children b
  end.

(** [builder.visit(tree)] on the module: its statements in order. *)
Definition visit_module (body : list stmt) : builder :=
  fold_left (fun b st => visit (ast st) b) body new_builder.

Definition build_graph (body : list stmt) : DiGraph := graph (visit_module body).

(** ** 2. [split_large_function] *)

Definition keywords : list str :=
  map py ["if "; "for "; "while "; "try"; "except"; "def "]%string.

(** One turn of the loop over the lines; the state is [(chunks, buffer)]. *)
Definition structural_step (max_lines : Z) (st : list str * list str)
    (line : str) : list str * list str :=
  let '(chunks, buffer) := st in
  let buffer := buffer ++ [line] in
  if startswith_any (strip line) keywords && (max_lines <=? len buffer)
  then (chunks ++ [join NL buffer], [])
  else (chunks, buffer).

Definition split_large_function (nd : stmt) (source : str) (max_lines : Z)
    : list str :=
  let code := get_source_segment source nd in
  let lines := splitlines code in
  if len lines <=? max_lines then [code]
  else
    let '(chunks, buffer) := fold_left (structural_step max_lines) lines ([], []) in
    if truthy buffer then chunks ++ [join NL buffer] else chunks.

(** ** 3. [chunk_code] *)

Definition MAX_TOKENS : Z := 4000.
Definition APPROX_CHARS_PER_TOKEN : Z := 4.

(** One turn of the loop of the budget splitter; the state is
    [(small_chunks, buffer, buffer_len)]. *)
Definition budget_step (max_chars : Z) (st : list str * list str * Z)
    (line : str) : list str * list str * Z :=
  let '(small_chunks, buffer, buffer_len) := st in
  let line_len := len line + 1 in
  if (max_chars <? buffer_len + line_len) && truthy buffer
  then (small_chunks ++ [join NL buffer], [line], line_len)
  else (small_chunks, buffer ++ [line], buffer_len + line_len).

Definition split_large_chunk_by_token (chunk : str) (max_tokens : Z) : list str :=
  let max_chars := max_tokens * APPROX_CHARS_PER_TOKEN in
  let lines := splitlines chunk in
  let '(small_chunks, buffer, _) :=
    fold_left (budget_step max_chars) lines ([], [], 0) in
  if truthy buffer then small_chunks ++ [join NL buffer] else small_chunks.

(** The dictionary [func_nodes]: a later definition of a name replaces the
    earlier one. *)
Fixpoint dict_set (k : str) (v : stmt) (d : list (str * stmt)) : list (str * stmt) :=
  match d with
  | [] => [(k, v)]
  | (k', v') :: d' =>
      if str_eqb k k' then (k, v) :: d' else (k', v') :: dict_set k v d'
  end.

Fixpoint dict_get (k : str) (d : list (str * stmt)) : option stmt :=
  match d with
  | [] => None
  | (k', v) :: d' => if str_eqb k k' then Some v else dict_get k d'
  end.

Definition func_nodes (body : list stmt) : list (str * stmt) :=
  fold_left
    (fun d st =>
       match function_name (ast st) with
       | Some name => dict_set name st d
       | None => d
       end)
    body [].

(** The text of a cluster: the span of each member that has one, each
    followed by a blank line. *)
Definition full_code (source : str) (fn : list (str * stmt)) (cluster : list str)
    : str :=
  fold_left
    (fun acc func_name =>
       match dict_get func_name fn with
       | Some nd => acc ++ (get_source_segment source nd ++ [LF; LF])
       | None => acc
       end)
    cluster [].

(** One turn of the loop over the clusters. *)
Definition cluster_step (source : str) (fn : list (str * stmt))
    (chunks : list str) (cluster : list str) : list str :=
  let code := full_code source fn cluster in
  if 100 <? len (splitlines code) then
    fold_left
      (fun chunks func_name =>
         match dict_get func_name fn with
         | Some nd => chunks ++ split_large_function nd source 50
         | None => chunks
         end)
      cluster chunks
  else chunks ++ [strip code].

Definition global_code (source : str) (body : list stmt) : str :=
  fold_left
    (fun acc st =>
       match function_name (ast st) with
       | Some _ => acc
       | None => acc ++ (get_source_segment source st ++ [LF; LF])
       end)
    body [].

(** The chunk list before the budget split: the cluster chunks, the
    module-level chunk in front, the fallback. *)
Definition assemble (source : str) (body : list stmt) (clusters : list (list str))
    : list str :=
  let chunks := fold_left (cluster_step source (func_nodes body)) clusters [] in
  let g := global_code source body in
  let chunks := if truthy (strip g) then strip g :: chunks else chunks in
  if truthy chunks then chunks else [strip source].

(** [chunk_code(source)], where [body] is [ast.parse(source).body] and
    [clusters] is [list(nx.strongly_connected_components(graph))]. *)
Definition chunk_code (source : str) (body : list stmt)
    (clusters : list (list str)) : list str :=
  fold_left
    (fun final_chunks c =>
       if MAX_TOKENS * APPROX_CHARS_PER_TOKEN <? len c
       then final_chunks ++ split_large_chunk_by_token c MAX_TOKENS
       else final_chunks ++ [c])
    (assemble source body clusters) [].

(** ** The contract of [nx.strongly_connected_components]

    The library yields the strongly connected components of the graph, each
    once, as sets, in an order of its own.  A listing [cs] of clusters, each
    cluster in the order its set is iterated, is a possible result when the
    clusters cover the nodes, are non-empty sets, and two nodes lie in the
    same cluster exactly when each is reachable from the other. *)

Definition edge (g : DiGraph) (u v : str) : Prop := In (u, v) (edges g).

Definition reachable (g : DiGraph) : str -> str -> Prop :=
  clos_refl_trans str (edge g).

Definition mutually_reachable (g : DiGraph) (u v : str) : Prop :=
  reachable g u v /\ reachable g v u.

Record scc_listing (g : DiGraph) (cs : list (list str)) : Prop := {
  scc_cover : forall v, In v (nodes g) <-> exists c, In c cs /\ In v c;
  scc_sets : forall c, In c cs -> c <> [] /\ NoDup c;
  scc_classes : forall i j ci cj u v,
      nth_error cs i = Some ci -> nth_error cs j = Some cj ->
      In u ci -> In v cj ->
      (i = j <-> mutually_reachable g u v)
}.

(** A checker for the contract on a given graph and listing. *)

Definition successors (g : DiGraph) (R : list str) : list str :=
  map snd (filter (fun e => mem (fst e) R) (edges g)).

Fixpoint reach_iter (g : DiGraph) (fuel : nat) (R : list str) : list str :=
  match fuel with
  | O => R
  | S k => reach_iter g k (R ++ filter (fun w => negb (mem w R)) (successors g R))
  end.

Definition reach_set (g : DiGraph) (u : str) : list str :=
  reach_iter g (length (nodes g)) [u].

Definition closedb (g : DiGraph) (R : list str) : bool :=
  forallb (fun e => implb (mem (fst e) R) (mem (snd e) R)) (edges g).

Fixpoint nodupb (l : list str) : bool :=
  match l with
  | [] => true
  | x :: r => negb (mem x r) && nodupb r
  end.

Definition indexed {A : Type} (l : list A) : list (nat * A) :=
  combine (seq 0 (length l)) l.

Definition scc_check (g : DiGraph) (cs : list (list str)) : bool :=
  forallb (fun v => mem v (concat cs)) (nodes g)
  && forallb (fun v => mem v (nodes g)) (concat cs)
  && forallb (fun c => truthy c && nodupb c) cs
  && forallb (fun u => closedb g (reach_set g u)) (concat cs)
  && forallb
       (fun ic =>
          forallb
            (fun jc =>
               forallb
                 (fun u =>
                    forallb
                      (fun v =>
                         Bool.eqb (Nat.eqb (fst ic) (fst jc))
                           (mem v (reach_set g u) && mem u (reach_set g v)))
                      (snd jc))
                 (snd ic))
            (indexed cs))
       (indexed cs).

(** The condition under which the structural splitter flushes a buffer: its
    last line, stripped, starts with one of the prefixes of [keywords], and
    it holds at least [max_lines] lines. *)
Definition flush_due (max_lines : Z) (buffer : list str) : bool :=
  truthy buffer
  && startswith_any (strip (last buffer [])) keywords
  && (max_lines <=? len buffer).

(** [sum(len(line) + 1 for line in buffer)] *)
Definition weight (buffer : list str) : Z :=
  fold_right (fun l acc => len l + 1 + acc) 0 buffer.

(** The chunks the budget stage puts in place of one chunk. *)
Definition final_pieces (c : str) : list str :=
  if MAX_TOKENS * APPROX_CHARS_PER_TOKEN <? len c
  then split_large_chunk_by_token c MAX_TOKENS
  else [c].

(** The chunks one cluster adds to the chunk list. *)
Definition cluster_chunks (source : str) (fn : list (str * stmt))
    (cluster : list str) : list str :=
  if 100 <? len (splitlines (full_code source fn cluster)) then
    flat_map
      (fun func_name =>
         match dict_get func_name fn with
         | Some nd => split_large_function nd source 50
         | None => []
         end)
      cluster
  else [strip (full_code source fn cluster)].

(** The names of the top-level function declarations. *)
Definition top_level_functions (body : list stmt) : list str :=
  flat_map
    (fun st => match function_name (ast st) with Some f => [f] | None => [] end)
    body.

(** A call whose callee is the simple name [p] occurs in the node. *)
Fixpoint has_call (p : str) (n : node) : bool :=
  match n with
  | FunctionDef _ children => existsb (has_call p) children
  | Call func args =>
      match is_Name func with Some id => str_eqb id p | None => false end
      || has_call p func
      || existsb (has_call p) args
  | Name _ => false
  | Other children => existsb (has_call p) children
  end.

(** Every function definition in the node has a name, as the parser
    ensures. *)
Fixpoint named (n : node) : bool :=
  match n with
  | FunctionDef name children => truthy name && forallb named children
  | Call func args => named func && forallb named args
  | Name _ => true
  | Other children => forallb named children
  end.

(** A listing that meets the contract, for reference: the components are
    enumerated in the order of their first node, each as the nodes mutually
    reachable with it.  The library's own order may differ; the properties
    below hold for every listing that meets the contract. *)

Definition component (g : DiGraph) (u : str) : list str :=
  filter (fun v => mem v (reach_set g u) && mem u (reach_set g v)) (nodes g).

Definition components_step (g : DiGraph) (found : list (list str)) (u : str)
    : list (list str) :=
  if mem u (concat found) then found else found ++ [component g u].

Definition components (g : DiGraph) : list (list str) :=
  fold_left (components_step g) (nodes g) [].

(** The nodes of a graph are distinct and the ends of its edges are nodes. *)
Definition graph_ok (g : DiGraph) : Prop :=
  NoDup (nodes g)
  /\ forall u v, In (u, v) (edges g) -> In u (nodes g) /\ In v (nodes g).

(** What the enumeration keeps true of the clusters found so far: each is
    the component of a node, and nodes of two different clusters are not
    mutually reachable. *)
Definition listing_inv (g : DiGraph) (found : list (list str)) : Prop :=
  (forall c, In c found -> exists r, In r (nodes g) /\ c = component g r)
  /\ (forall i j ci cj u v,
        nth_error found i = Some ci -> nth_error found j = Some cj ->
        In u ci -> In v cj -> mutually_reachable g u v -> i = j).

(** The number of nodes outside a set. *)
Definition missing (g : DiGraph) (R : list str) : nat :=
  length (filter (fun v => negb (mem v R)) (nodes g)).

(** [self.current_function] holds a name. *)
Definition live (b : builder) : Prop := current_truthy b <> None.

(** The spans of the members of a cluster that are top-level functions. *)
Definition known_spans (source : str) (fn : list (str * stmt))
    (cluster : list str) : list str :=
  flat_map
    (fun func_name =>
       match dict_get func_name fn with
       | Some nd => [get_source_segment source nd]
       | None => []
       end)
    cluster.

(** A span as the parser gives it for a statement: not empty, and not ending
    in a line break. *)
Definition ends_clean (s : str) : Prop :=
  s <> [] /\ is_linebreak (last s 0%N) = false.

(** ** Sample inputs *)

Definition plain_line : str := py "    x = x + 1".

(** The statement [x = x + 1]: the target, and the sum of a name and a
    constant. *)
Definition assign_node : node :=
  Other [Name (py "x"); Other [Name (py "x"); Other []; Other []]].

(** [if x: x = x + 1] *)
Definition if_node : node := Other [Name (py "x"); assign_node].

(** [return x] *)
Definition return_node : node := Other [Name (py "x")].

(** The lines of a function of [1 + before + 1 + after] lines whose line
    [before + 2] is [marked]. *)
Definition sample_lines (before : nat) (marked : str) (after : nat) : list str :=
  py "def f(x):" :: repeat plain_line before ++ marked :: repeat plain_line after.

(** The function of these lines, [marked_node] being the statement of the
    marked line; the first child is the argument list. *)
Definition sample_function (before : nat) (marked : str) (marked_node : node)
    (after : nat) : stmt :=
  Stmt (FunctionDef (py "f")
          (Other [Other []] :: repeat assign_node before
             ++ marked_node :: repeat assign_node after))
       (join NL (sample_lines before marked after)).

(** 120 lines, line 55 being [if x: x = x + 1]. *)
Definition if_at_55 : stmt :=
  sample_function 53 (py "    if x: x = x + 1") if_node 65.

(** 120 lines, line 55 being [if(x): x = x + 1]. *)
Definition paren_if_at_55 : stmt :=
  sample_function 53 (py "    if(x): x = x + 1") if_node 65.

(** Three lines, within every budget. *)
Definition small_function : stmt :=
  sample_function 1 (py "    return x") return_node 0.

(** A function of 1302 lines, more than 16000 characters long. *)
Definition long_function : stmt :=
  sample_function 1300 (py "    return x") return_node 0.

(** [def f(): print(1)], and the components in the order the library yields
    them. *)
Definition print_body : list stmt :=
  [Stmt (FunctionDef (py "f")
           [Other []; Other [Call (Name (py "print")) [Other []]]])
        (join NL [py "def f():"; py "    print(1)"])].

Definition print_source : str := join NL [py "def f():"; py "    print(1)"].

Definition print_clusters : list (list str) := [[py "print"]; [py "f"]].

(** Two independent functions. *)
Definition two_source : str := join NL [py "def x(): pass"; py "def y(): pass"].

Definition two_body : list stmt :=
  [Stmt (FunctionDef (py "x") [Other []; Other []]) (py "def x(): pass");
   Stmt (FunctionDef (py "y") [Other []; Other []]) (py "def y(): pass")].

Definition two_clusters : list (list str) := [[py "x"]; [py "y"]].

(** A nested definition, a call after it, and a call at module level:
<<
def outer():
    def inner():
        helper()
    other()
late()
>> *)
Definition nested_source : str :=
  join NL [py "def outer():"; py "    def inner():"; py "        helper()";
           py "    other()"; py "late()"].

Definition nested_body : list stmt :=
  [Stmt (FunctionDef (py "outer")
           [Other [];
            FunctionDef (py "inner")
              [Other []; Other [Call (Name (py "helper")) []]];
            Other [Call (Name (py "other")) []]])
        (join NL [py "def outer():"; py "    def inner():";
                  py "        helper()"; py "    other()"]);
   Stmt (Other [Call (Name (py "late")) []]) (py "late()")].

(** 100 lines, line 60 being [if x: x = x + 1]. *)
Definition hundred_function : stmt :=
  sample_function 58 (py "    if x: x = x + 1") if_node 40.

(** ** Syntactic facts about a tree, for the properties of the builder *)

(** A function definition named [u] occurs in the node. *)
Fixpoint defines (u : str) (n : node) : bool :=
  match n with
  | FunctionDef name children => str_eqb name u || existsb (defines u) children
  | Call func args => defines u func || existsb (defines u) args
  | Name _ => false
  | Other children => existsb (defines u) children
  end.

(** No function definition occurs in the node. *)
Fixpoint flat (n : node) : bool :=
  match n with
  | FunctionDef _ _ => false
  | Call func args => flat func && forallb flat args
  | Name _ => true
  | Other children => forallb flat children
  end.

(** The state of the builder mentions only names of [D] as callers and only
    names of [C] as callees. *)
Definition builder_sound (D C : str -> Prop) (b : builder) : Prop :=
  (forall u v, In (u, v) (edges (graph b)) -> D u /\ C v)
  /\ (forall v, In v (nodes (graph b)) -> D v \/ C v)
  /\ (forall f, current_function b = Some f -> D f).

(** [def a(): b()] and [def b(): a()]. *)
Definition mutual_source : str := join NL [py "def a(): b()"; py "def b(): a()"].

Definition mutual_body : list stmt :=
  [Stmt (FunctionDef (py "a") [Other []; Other [Call (Name (py "b")) []]])
        (py "def a(): b()");
   Stmt (FunctionDef (py "b") [Other []; Other [Call (Name (py "a")) []]])
        (py "def b(): a()")].

Definition mutual_clusters : list (list str) := [[py "b"; py "a"]].

(** A module of one statement, [print(1)]. *)
Definition script_body : list stmt :=
  [Stmt (Other [Call (Name (py "print")) [Other []]]) (py "print(1)")].

(** The same name defined twice at top level. *)
Definition twice_body : list stmt :=
  [Stmt (FunctionDef (py "f") [Other []; Other []]) (py "def f(): pass");
   Stmt (FunctionDef (py "f") [Other []; Other [Name (py "x")]]) (py "def f(): x")].

(** Statements around a function. *)
Definition mixed_body : list stmt :=
  [Stmt (Other [Other []]) (py "import os");
   Stmt (FunctionDef (py "x") [Other []; Other []]) (py "def x(): pass");
   Stmt (Other [Name (py "y"); Other []]) (py "y = 1")].

Definition mixed_source : str :=
  join NL [py "import os"; py "def x(): pass"; py "y = 1"].

(** Greedy packing: no group could have taken the first line of the group
    that follows it. *)
Fixpoint greedy (max_chars : Z) (groups : list (list str)) : Prop :=
  match groups with
  | g :: ((h :: _) as tl) =>
      max_chars < weight g + (len (hd [] h) + 1) /\ greedy max_chars tl
  | _ => True
  end.

(** 60 lines without any keyword after the first. *)
Definition straight_function : stmt :=
  sample_function 58 (py "    return x") return_node 0.

(** ** [pipeline.py]

    The language model, the formatter and the sandboxed execution are
    services outside the program.  What a call returns, or the exception it
    raises, is given by an oracle, indexed by the position of the chunk the
    call is made for. *)

(** The record [{"success": ..., "output": ..., "error": ...}]. *)
Record exec_result : Type :=
  ExecResult { success : bool; output : str; error : str }.

(** The result of a call that may raise; [Raised] carries [str(e)]. *)
Inductive outcome (A : Type) : Type :=
| Returned (a : A)
| Raised (msg : str).

Arguments Returned {A} a.
Arguments Raised {A} msg.

Record services : Type := Services {
  run_chain : nat -> str -> outcome str;
  lint : nat -> str -> str -> outcome str;
  execute : nat -> str -> str -> outcome exec_result
}.

(** [PolyglotPipeline.wrap_java_code] *)
Definition java_indent (line : str) : str :=
  if truthy (strip line) then py "        " ++ line else [].

Definition java_header : list str :=
  [py "public class TranslatedProgram {";
   py "    public static void main(String[] args) {"].

Definition java_footer : list str := [py "    }"; py "}"].

Definition wrap_java_code (code : str) : str :=
  let indented := join NL (map java_indent (splitlines code)) in
  py "public class TranslatedProgram {" ++ NL
  ++ py "    public static void main(String[] args) {" ++ NL
  ++ indented ++ NL
  ++ py "    }" ++ NL
  ++ py "}" ++ NL.

(** The entry of a chunk whose processing raised [e]. *)
Definition failed_chunk (header : str) (e chunk : str)
    : str * option exec_result :=
  (header ++ NL ++ py "# " ++ e ++ [LF; LF] ++ chunk,
   Some (ExecResult false [] e)).

(** [translate_chunk], the function [PolyglotPipeline.run] maps over the
    chunks; the pair is [(r["code"], r["exec"])]. *)
Definition translate_chunk (svc : services) (target : str) (i : nat) (chunk : str)
    : str * option exec_result :=
  if negb (truthy (strip chunk)) then ([], None)
  else
    match run_chain svc i chunk with
    | Raised e => failed_chunk (py "# Failed to translate chunk:") e chunk
    | Returned answer =>
        let translated := strip answer in
        match lint svc i translated target with
        | Raised e => failed_chunk (py "# Failed to translate chunk:") e chunk
        | Returned linted =>
            let linted :=
              if str_eqb target (py "java") then wrap_java_code linted else linted in
            match execute svc i linted target with
            | Raised e => failed_chunk (py "# Failed to translate chunk:") e chunk
            | Returned exec_result => (linted, Some exec_result)
            end
        end
    end.

(** [executor.map]: the results in the order of the inputs. *)
Fixpoint map_from {A B : Type} (f : nat -> A -> B) (i : nat) (l : list A) : list B :=
  match l with
  | [] => []
  | x :: r => f i x :: map_from f (S i) r
  end.

(** [PolyglotPipeline.run], from the chunks on. *)
Definition polyglot_run (svc : services) (target : str) (chunks : list str)
    : str * list (option exec_result) :=
  let results := map_from (translate_chunk svc target) 0 chunks in
  (join [LF; LF] (map fst results), map snd results).

(** One turn of the loop of [PythonVersionPipeline.run]; the chunk is the
    one at position [length results]. *)
Definition version_step (svc : services) (results : list (str * option exec_result))
    (chunk : str) : list (str * option exec_result) :=
  let i := length results in
  if negb (truthy (strip chunk)) then results ++ [([], None)]
  else
    match run_chain svc i chunk with
    | Raised e => results ++ [failed_chunk (py "# Failed to update chunk:") e chunk]
    | Returned answer =>
        let updated_code := strip answer in
        match lint svc i updated_code (py "python") with
        | Raised e => results ++ [failed_chunk (py "# Failed to update chunk:") e chunk]
        | Returned linted =>
            match execute svc i linted (py "python") with
            | Raised e =>
                results ++ [failed_chunk (py "# Failed to update chunk:") e chunk]
            | Returned exec_result => results ++ [(linted, Some exec_result)]
            end
        end
    end.

(** [PythonVersionPipeline.run], from the chunks on. *)
Definition version_run (svc : services) (chunks : list str)
    : str * list (option exec_result) :=
  let results := fold_left (version_step svc) chunks [] in
  (join [LF; LF] (map fst results), map snd results).

(** Services for the samples: the chain answers with the chunk itself, the
    formatter changes nothing, the execution succeeds without output; the
    chain raises on the chunk at position 1. *)
Definition sample_services : services :=
  Services
    (fun i chunk => if Nat.eqb i 1 then Raised (py "rate limit") else Returned chunk)
    (fun _ code _ => Returned code)
    (fun _ _ _ => Returned (ExecResult true [] [])).

(** What one turn of the loop of [PythonVersionPipeline.run] appends for
    the chunk at position [i]. *)
Definition version_entry (svc : services) (i : nat) (chunk : str)
    : str * option exec_result :=
  last (version_step svc (repeat ([], None) i) chunk) ([], None).

(** ** [services/execution_service.py] and [services/lint_service.py]

    A service writes the code to a temporary file, runs programs on it and
    removes it.  The programs are outside the model: what [subprocess.run]
    returns or raises for a command, and what the file holds once the
    formatter has run, are given by the [world], with the names of the
    temporary directory and files.  A service returns the trace of what it
    did to the world along with its result. *)
















(** * Properties *)

(** ** Lists and loops *)

Lemma len_app {A : Type} (l1 l2 : list A) : len (l1 ++ l2) = len l1 + len l2.
Proof. unfold len. rewrite length_app. lia. Qed.

Lemma len_nonneg {A : Type} (l : list A) : 0 <= len l.
Proof. unfold len. lia. Qed.

Lemma truthy_true {A : Type} (l : list A) : truthy l = true <-> l <> [].
Proof. destruct l; simpl; split; congruence. Qed.

Lemma truthy_false {A : Type} (l : list A) : truthy l = false <-> l = [].
Proof. destruct l; simpl; split; congruence. Qed.

Lemma truthy_snoc {A : Type} (l : list A) (x : A) : truthy (l ++ [x]) = true.
Proof. destruct l; reflexivity. Qed.

(** A loop that only appends to its accumulator. *)
Lemma fold_left_extend {A B : Type} (f : A -> list B) (l : list A) (acc : list B) :
  fold_left (fun acc x => acc ++ f x) l acc = acc ++ flat_map f l.
Proof.
  revert acc. induction l as [|x l IH]; intros acc; simpl.
  - now rewrite app_nil_r.
  - rewrite IH. now rewrite app_assoc.
Qed.

Lemma firstn_snoc_le {A : Type} (l : list A) (x : A) (n : nat) :
  (n <= length l)%nat -> firstn n (l ++ [x]) = firstn n l.
Proof.
  intros H. rewrite firstn_app.
  replace (n - length l)%nat with O by lia. simpl. now rewrite app_nil_r.
Qed.

(** ** [join] *)

Lemma join_cons2 (x y : str) (l : list str) :
  join NL (x :: y :: l) = x ++ NL ++ join NL (y :: l).
Proof. reflexivity. Qed.

Lemma join_app (l1 l2 : list str) :
  l1 <> [] -> l2 <> [] -> join NL (l1 ++ l2) = join NL l1 ++ NL ++ join NL l2.
Proof.
  intros H1 H2. induction l1 as [|x l1 IH]; [congruence|].
  destruct l1 as [|y l1].
  - destruct l2 as [|z l2]; [congruence|]. reflexivity.
  - change ((x :: y :: l1) ++ l2) with (x :: y :: (l1 ++ l2)).
    rewrite !join_cons2. change (y :: l1 ++ l2) with ((y :: l1) ++ l2).
    rewrite IH by discriminate. now rewrite <- !app_assoc.
Qed.

Lemma concat_nonempty (gs : list (list str)) :
  gs <> [] -> Forall (fun g => g <> []) gs -> concat gs <> [].
Proof.
  intros Hne Hall. destruct gs as [|g gs]; [congruence|].
  inversion Hall; subst. simpl. destruct g; [congruence | discriminate].
Qed.

(** Joining the joined groups is joining all the lines. *)
Lemma join_concat (gs : list (list str)) :
  Forall (fun g => g <> []) gs ->
  join NL (map (join NL) gs) = join NL (concat gs).
Proof.
  induction gs as [|g gs IH]; intros Hall; [reflexivity|].
  inversion Hall as [|? ? Hg Hgs]; subst.
  destruct gs as [|g' gs].
  - simpl. now rewrite app_nil_r.
  - change (map (join NL) (g :: g' :: gs))
      with (join NL g :: join NL g' :: map (join NL) gs).
    rewrite join_cons2.
    change (join NL g' :: map (join NL) gs) with (map (join NL) (g' :: gs)).
    rewrite IH by exact Hgs.
    change (concat (g :: g' :: gs)) with (g ++ concat (g' :: gs)).
    rewrite join_app; auto.
    apply concat_nonempty; [discriminate | exact Hgs].
Qed.

(** ** [splitlines] *)

Lemma splitlines_from_nil (s cur : str) :
  splitlines_from cur s = [] -> cur = [] /\ s = [].
Proof.
  revert cur. induction s as [|c rest IH]; intros cur H; simpl in H.
  - destruct cur; [auto | discriminate].
  - destruct (is_linebreak c).
    + destruct rest as [|d rest']; [discriminate|].
      destruct ((c =? CR)%N && (d =? LF)%N); discriminate.
    + apply IH in H as [Hcur _]. destruct cur; discriminate.
Qed.

(** No line contains a line break. *)
Lemma splitlines_from_no_break (n : nat) :
  forall s cur, (length s <= n)%nat ->
    Forall (fun c => is_linebreak c = false) cur ->
    Forall (Forall (fun c => is_linebreak c = false)) (splitlines_from cur s).
Proof.
  induction n as [|n IH]; intros s cur Hn Hcur.
  - destruct s; [|simpl in Hn; lia]. simpl.
    destruct (truthy cur); repeat constructor; auto.
  - destruct s as [|c rest].
    + simpl. destruct (truthy cur); repeat constructor; auto.
    + simpl in Hn. simpl. destruct (is_linebreak c) eqn:Hc.
      * destruct rest as [|d rest'].
        { simpl. repeat constructor; auto. }
        simpl in Hn.
        destruct ((c =? CR)%N && (d =? LF)%N);
          (constructor; [exact Hcur | apply IH; [simpl; lia | constructor]]).
      * apply IH; [lia|]. apply Forall_app. split; [exact Hcur|].
        repeat constructor; auto.
Qed.

Lemma splitlines_no_break (s : str) :
  Forall (Forall (fun c => is_linebreak c = false)) (splitlines s).
Proof. now apply (splitlines_from_no_break (length s)). Qed.

(** A text without line breaks is its own only line. *)
Lemma splitlines_from_one_line (s : str) :
  forall cur, Forall (fun c => is_linebreak c = false) s ->
    splitlines_from cur s = if truthy (cur ++ s) then [cur ++ s] else [].
Proof.
  induction s as [|c rest IH]; intros cur Hs.
  - simpl. now rewrite app_nil_r.
  - inversion Hs as [|? ? Hc Hrest]; subst. simpl. rewrite Hc.
    rewrite IH by exact Hrest. now rewrite <- app_assoc.
Qed.

(** Round trip: when the only line break of a text is the newline and the
    text does not end in one, joining its lines gives the text back. *)
Lemma join_splitlines_from (s : str) :
  forall cur,
    (forall c, In c s -> is_linebreak c = true -> c = LF) ->
    (forall p, s <> p ++ [LF]) ->
    join NL (splitlines_from cur s) = cur ++ s.
Proof.
  induction s as [|c rest IH]; intros cur Hbr Hend.
  - simpl. rewrite app_nil_r. now destruct cur.
  - simpl. destruct (is_linebreak c) eqn:Hc.
    + assert (c = LF) by (apply Hbr; [now left | exact Hc]). subst c.
      assert (Hrest : join NL (splitlines_from [] rest) = rest).
      { apply (IH []).
        - intros c Hin. apply Hbr. now right.
        - intros p Hp. apply (Hend (LF :: p)). simpl. now rewrite Hp. }
      assert (Hne : splitlines_from [] rest <> []).
      { intros Hnil. apply splitlines_from_nil in Hnil as [_ Hnil].
        subst rest. now apply (Hend []). }
      assert (Hj : join NL (cur :: splitlines_from [] rest) = cur ++ LF :: rest).
      { destruct (splitlines_from [] rest) as [|l ls]; [congruence|].
        rewrite join_cons2, Hrest. reflexivity. }
      destruct rest as [|d rest']; [now elim (Hend [])|].
      change ((LF =? CR)%N) with false. simpl andb. exact Hj.
    + rewrite IH.
      * now rewrite <- app_assoc.
      * intros c' Hin. apply Hbr. now right.
      * intros p Hp. apply (Hend (c :: p)). simpl. now rewrite Hp.
Qed.

(** ** The structural splitter *)

Section StructuralLoop.

Variable max_lines : Z.

Lemma flush_due_snoc (buffer : list str) (line : str) :
  flush_due max_lines (buffer ++ [line])
  = startswith_any (strip line) keywords && (max_lines <=? len (buffer ++ [line])).
Proof.
  unfold flush_due. now rewrite truthy_snoc, last_last.
Qed.

Lemma flush_due_nonempty (g : list str) :
  flush_due max_lines g = true -> g <> [].
Proof. destruct g; [discriminate | congruence]. Qed.

Lemma structural_step_eq (chunks buffer : list str) (line : str) :
  structural_step max_lines (chunks, buffer) line
  = if flush_due max_lines (buffer ++ [line])
    then (chunks ++ [join NL (buffer ++ [line])], [])
    else (chunks, buffer ++ [line]).
Proof. unfold structural_step. now rewrite flush_due_snoc. Qed.

(** The loop flushes at the first moment [flush_due] holds of the buffer, and
    only then. *)
Lemma structural_loop (lines : list str) :
  forall chunks buffer,
    (forall n, (n <= length buffer)%nat ->
               flush_due max_lines (firstn n buffer) = false) ->
    exists gs rest,
      fold_left (structural_step max_lines) lines (chunks, buffer)
      = (chunks ++ map (join NL) gs, rest)
      /\ concat gs ++ rest = buffer ++ lines
      /\ Forall (fun g => flush_due max_lines g = true
                          /\ forall n, (n < length g)%nat ->
                                       flush_due max_lines (firstn n g) = false) gs
      /\ (forall n, (n <= length rest)%nat ->
                    flush_due max_lines (firstn n rest) = false).
Proof.
  induction lines as [|line lines IH]; intros chunks buffer Hbuf.
  - exists [], buffer. simpl. rewrite !app_nil_r. auto.
  - cbn [fold_left]. rewrite structural_step_eq.
    destruct (flush_due max_lines (buffer ++ [line])) eqn:Hdue.
    + destruct (IH (chunks ++ [join NL (buffer ++ [line])]) []) as (gs & rest & Hf & Hc & Hg & Hr).
      { intros n _. now rewrite firstn_nil. }
      exists ((buffer ++ [line]) :: gs), rest. repeat split.
      * rewrite Hf. simpl. now rewrite <- app_assoc.
      * simpl. rewrite <- !app_assoc. f_equal. simpl in Hc. simpl. now rewrite Hc.
      * constructor; [split; [exact Hdue|] | exact Hg].
        intros n Hn. rewrite length_app in Hn. simpl in Hn.
        rewrite firstn_snoc_le by lia. apply Hbuf. lia.
      * exact Hr.
    + destruct (IH chunks (buffer ++ [line])) as (gs & rest & Hf & Hc & Hg & Hr).
      { intros n Hn. rewrite length_app in Hn. simpl in Hn.
        destruct (Nat.eq_dec n (length buffer + 1)) as [->|Hne].
        - rewrite firstn_all2 by (rewrite length_app; simpl; lia). exact Hdue.
        - rewrite firstn_snoc_le by lia. apply Hbuf. lia. }
      exists gs, rest. repeat split; auto.
      rewrite Hc. now rewrite <- app_assoc.
Qed.

End StructuralLoop.

(** What [split_large_function] returns on a text over the line budget. *)
Lemma split_large_function_groups (nd : stmt) (source : str) (max_lines : Z) :
  max_lines < len (splitlines (get_source_segment source nd)) ->
  exists gs rest,
    split_large_function nd source max_lines
    = map (join NL) gs ++ (if truthy rest then [join NL rest] else [])
    /\ concat gs ++ rest = splitlines (get_source_segment source nd)
    /\ Forall (fun g => flush_due max_lines g = true
                        /\ forall n, (n < length g)%nat ->
                                     flush_due max_lines (firstn n g) = false) gs
    /\ (forall n, (n <= length rest)%nat ->
                  flush_due max_lines (firstn n rest) = false).
Proof.
  intros Hover. unfold split_large_function.
  destruct (Z.leb_spec (len (splitlines (get_source_segment source nd))) max_lines) as [Hle|_];
    [lia|].
  destruct (structural_loop max_lines (splitlines (get_source_segment source nd)) [] [])
    as (gs & rest & Hf & Hc & Hg & Hr).
  { intros n _. now rewrite firstn_nil. }
  rewrite Hf. simpl in Hc. exists gs, rest. repeat split; auto.
  simpl. destruct (truthy rest); [reflexivity | now rewrite app_nil_r].
Qed.

Lemma last_firstn_nth {A : Type} (d : A) (l : list A) :
  forall n, (n < length l)%nat -> last (firstn (S n) l) d = nth n l d.
Proof.
  induction l as [|x l IH]; intros n Hn; simpl in Hn; [lia|].
  destruct n as [|n].
  - reflexivity.
  - change (firstn (S (S n)) (x :: l)) with (x :: firstn (S n) l).
    assert (Hlt : (n < length l)%nat) by lia.
    specialize (IH n Hlt).
    destruct l as [|y l]; [simpl in Hlt; lia|].
    simpl in IH |- *. exact IH.
Qed.

Lemma startswith_any_in (s p : str) (ps : list str) :
  In p ps -> startswith s p = true -> startswith_any s ps = true.
Proof.
  intros Hin Hp. unfold startswith_any. apply existsb_exists. eauto.
Qed.

Lemma map_join_tail (gs : list (list str)) (rest : list str) :
  map (join NL) gs ++ (if truthy rest then [join NL rest] else [])
  = map (join NL) (gs ++ (if truthy rest then [rest] else [])).
Proof. rewrite map_app. now destruct (truthy rest). Qed.

Lemma concat_tail (gs : list (list str)) (rest : list str) :
  concat (gs ++ (if truthy rest then [rest] else [])) = concat gs ++ rest.
Proof.
  rewrite concat_app. destruct rest; simpl; now rewrite ?app_nil_r.
Qed.

Lemma Forall_nonempty_tail (gs : list (list str)) (rest : list str) :
  Forall (fun g => g <> []) gs ->
  Forall (fun g => g <> []) (gs ++ (if truthy rest then [rest] else [])).
Proof.
  intros H. apply Forall_app. split; [exact H|].
  destruct rest; simpl; constructor; [discriminate | constructor].
Qed.

(** C8: on a text whose line count exceeds the line budget,
    [split_large_function] returns the joins of non-empty groups of lines
    which, concatenated in order, are the lines of the text: no chunk is the
    join of zero lines, and every line is in exactly one chunk, in its
    place. *)
Theorem split_large_function_partitions_lines (nd : stmt) (source : str) (max_lines : Z) :
  max_lines < len (splitlines (get_source_segment source nd)) ->
  exists groups,
    split_large_function nd source max_lines = map (join NL) groups
    /\ Forall (fun g => g <> []) groups
    /\ concat groups = splitlines (get_source_segment source nd)
    /\ join NL (split_large_function nd source max_lines)
       = join NL (splitlines (get_source_segment source nd)).
Proof.
  intros Hover.
  destruct (split_large_function_groups nd source max_lines Hover)
    as (gs & rest & Hs & Hc & Hg & _).
  assert (Hne : Forall (fun g : list str => g <> [])
                  (gs ++ (if truthy rest then [rest] else []))).
  { apply Forall_nonempty_tail. eapply Forall_impl; [|exact Hg].
    intros g [Hd _]. now apply flush_due_nonempty in Hd. }
  exists (gs ++ (if truthy rest then [rest] else [])).
  rewrite Hs, map_join_tail, concat_tail. repeat split; auto.
  rewrite join_concat by exact Hne. now rewrite concat_tail, Hc.
Qed.

Lemma split_large_function_partitions_lines_witness :
  exists groups,
    split_large_function if_at_55 [] 50 = map (join NL) groups
    /\ Forall (fun g => g <> []) groups
    /\ concat groups = splitlines (get_source_segment [] if_at_55)
    /\ join NL (split_large_function if_at_55 [] 50)
       = join NL (splitlines (get_source_segment [] if_at_55)).
Proof.
  apply (split_large_function_partitions_lines if_at_55 [] 50).
  vm_compute. reflexivity.
Defined.

Lemma flush_due_at (max_lines : Z) (lines : list str) (n : nat) :
  (n < length lines)%nat ->
  startswith_any (strip (nth n lines [])) keywords = true ->
  max_lines <= Z.of_nat (S n) ->
  flush_due max_lines (firstn (S n) lines) = true.
Proof.
  intros Hn Hkw Hmax. unfold flush_due.
  rewrite last_firstn_nth by exact Hn. rewrite Hkw.
  assert (Hlen : length (firstn (S n) lines) = S n) by (rewrite length_firstn; lia).
  unfold len. rewrite Hlen.
  destruct (firstn (S n) lines); [simpl in Hlen; lia|].
  simpl. apply Z.leb_le. exact Hmax.
Qed.

(** C4, amended: within the line budget the text is returned unchanged as one
    chunk; over it, the lines are cut into the groups [gs] and a remainder
    [rest], a group being closed at the first line on which [flush_due] holds
    (the stripped line starts with a prefix of [keywords] and the buffer holds
    at least [max_lines] lines) and at no other line; and a text of 120 lines
    whose line 55, stripped, starts with [if] and a space gives a first chunk
    of 50 to 55 lines followed by the chunks of the remaining lines. *)
Theorem structural_splitter_behaviour (nd : stmt) (source : str) (max_lines : Z) :
  let code := get_source_segment source nd in
  let lines := splitlines code in
  (len lines <= max_lines -> split_large_function nd source max_lines = [code])
  /\ (max_lines < len lines ->
      exists gs rest,
        split_large_function nd source max_lines
        = map (join NL) gs ++ (if truthy rest then [join NL rest] else [])
        /\ concat gs ++ rest = lines
        /\ Forall (fun g => flush_due max_lines g = true
                            /\ forall n, (n < length g)%nat ->
                                         flush_due max_lines (firstn n g) = false) gs
        /\ (forall n, (n <= length rest)%nat ->
                      flush_due max_lines (firstn n rest) = false))
  /\ (max_lines = 50 -> length lines = 120%nat ->
      startswith (strip (nth 54 lines [])) (py "if ") = true ->
      exists k rest_groups,
        (50 <= k <= 55)%nat
        /\ split_large_function nd source max_lines
           = join NL (firstn k lines) :: map (join NL) rest_groups
        /\ concat rest_groups = skipn k lines
        /\ Forall (fun g => g <> []) rest_groups
        /\ rest_groups <> []).
Proof.
  intros code lines. split; [|split].
  - intros Hle. unfold split_large_function. fold code. fold lines.
    destruct (Z.leb_spec (len lines) max_lines); [reflexivity | lia].
  - intros Hover. exact (split_large_function_groups nd source max_lines Hover).
  - intros -> Hlen Hif.
    assert (Hkw : startswith_any (strip (nth 54 lines [])) keywords = true).
    { eapply startswith_any_in; [|exact Hif]. simpl. auto. }
    assert (Hdue : flush_due 50 (firstn 55 lines) = true).
    { apply flush_due_at; [lia | exact Hkw | lia]. }
    destruct (split_large_function_groups nd source 50)
      as (gs & rest & Hs & Hc & Hg & Hr).
    { fold code. fold lines. unfold len. lia. }
    fold code in Hc. fold lines in Hc.
    destruct gs as [|g gs'].
    + simpl in Hc. subst rest.
      rewrite Hr in Hdue by lia. discriminate.
    + inversion Hg as [|? ? [Hgd Hgp] Hg']; subst.
      simpl in Hc. rewrite <- app_assoc in Hc.
      assert (H50 : (50 <= length g)%nat).
      { unfold flush_due in Hgd. apply andb_prop in Hgd as [_ Hgl].
        apply Z.leb_le in Hgl. unfold len in Hgl. lia. }
      assert (H55 : (length g <= 55)%nat).
      { destruct (le_lt_dec (length g) 55) as [Hle|Hgt]; [exact Hle|].
        specialize (Hgp 55%nat Hgt).
        rewrite <- Hc in Hdue. rewrite firstn_app in Hdue.
        replace (55 - length g)%nat with O in Hdue by lia.
        rewrite firstn_O, app_nil_r in Hdue. congruence. }
      assert (Hne : Forall (fun g : list str => g <> [])
                      (gs' ++ (if truthy rest then [rest] else []))).
      { apply Forall_nonempty_tail. eapply Forall_impl; [|exact Hg'].
        intros g0 [Hd _]. now apply flush_due_nonempty in Hd. }
      exists (length g), (gs' ++ (if truthy rest then [rest] else [])).
      assert (Hfirst : firstn (length g) lines = g).
      { rewrite <- Hc. rewrite firstn_app, firstn_all.
        replace (length g - length g)%nat with O by lia.
        simpl. now rewrite app_nil_r. }
      assert (Hskip : skipn (length g) lines = concat gs' ++ rest).
      { rewrite <- Hc. rewrite skipn_app, skipn_all.
        replace (length g - length g)%nat with O by lia. reflexivity. }
      repeat split; auto.
      * rewrite Hs, Hfirst. simpl. f_equal. apply map_join_tail.
      * now rewrite concat_tail, Hskip.
      * intros Hnil.
        assert (Hl : length (skipn (length g) lines) = 0%nat).
        { rewrite Hskip. destruct gs'; [|discriminate].
          destruct rest; [reflexivity | discriminate]. }
        rewrite length_skipn in Hl. lia.
Qed.

Lemma structural_splitter_behaviour_witness :
  split_large_function small_function [] 50 = [get_source_segment [] small_function]
  /\ (exists gs rest,
        split_large_function if_at_55 [] 50
        = map (join NL) gs ++ (if truthy rest then [join NL rest] else [])
        /\ concat gs ++ rest = splitlines (get_source_segment [] if_at_55)
        /\ Forall (fun g => flush_due 50 g = true
                            /\ forall n, (n < length g)%nat ->
                                         flush_due 50 (firstn n g) = false) gs
        /\ (forall n, (n <= length rest)%nat ->
                      flush_due 50 (firstn n rest) = false))
  /\ (exists k rest_groups,
        (50 <= k <= 55)%nat
        /\ split_large_function if_at_55 [] 50
           = join NL (firstn k (splitlines (get_source_segment [] if_at_55)))
               :: map (join NL) rest_groups
        /\ concat rest_groups = skipn k (splitlines (get_source_segment [] if_at_55))
        /\ Forall (fun g => g <> []) rest_groups
        /\ rest_groups <> []).
Proof.
  split; [|split].
  - apply (proj1 (structural_splitter_behaviour small_function [] 50)).
    vm_compute. discriminate.
  - apply (proj1 (proj2 (structural_splitter_behaviour if_at_55 [] 50))).
    vm_compute. reflexivity.
  - apply (proj2 (proj2 (structural_splitter_behaviour if_at_55 [] 50))).
    + reflexivity.
    + vm_compute. reflexivity.
    + vm_compute. reflexivity.
Defined.

(** C4 as stated fails: line 55 of the 120 lines of [paren_if_at_55] starts,
    once stripped, with the keyword [if], yet the splitter returns the whole
    text as one chunk, with no remainder after it. *)
Lemma structural_splitter_keyword_counterexample :
  len (splitlines (get_source_segment [] paren_if_at_55)) = 120
  /\ startswith
       (lstrip (nth 54 (splitlines (get_source_segment [] paren_if_at_55)) []))
       (py "if") = true
  /\ split_large_function paren_if_at_55 [] 50
     = [join NL (splitlines (get_source_segment [] paren_if_at_55))]
  /\ ~ (exists first rest,
          split_large_function paren_if_at_55 [] 50 = first :: rest
          /\ rest <> []).
Proof.
  assert (H : split_large_function paren_if_at_55 [] 50
              = [join NL (splitlines (get_source_segment [] paren_if_at_55))])
    by (vm_compute; reflexivity).
  split; [vm_compute; reflexivity|].
  split; [vm_compute; reflexivity|].
  split; [exact H|].
  intros (first & rest & Heq & Hne). rewrite H in Heq.
  inversion Heq; subst. congruence.
Qed.

(** ** The budget splitter *)

Lemma weight_app (l1 l2 : list str) : weight (l1 ++ l2) = weight l1 + weight l2.
Proof. induction l1 as [|x l1 IH]; simpl; [reflexivity | rewrite IH; lia]. Qed.

Lemma weight_one (l : str) : weight [l] = len l + 1.
Proof. simpl. lia. Qed.

Lemma len_join (g : list str) : g <> [] -> len (join NL g) = weight g - 1.
Proof.
  induction g as [|x g IH]; intros Hne; [congruence|].
  destruct g as [|y g].
  - simpl. lia.
  - rewrite join_cons2, !len_app, IH by discriminate.
    change (weight (x :: y :: g)) with (len x + 1 + weight (y :: g)).
    change (len NL) with 1. lia.
Qed.

Section BudgetLoop.

Variable max_chars : Z.

Lemma budget_step_eq (small buffer : list str) (line : str) :
  budget_step max_chars (small, buffer, weight buffer) line
  = if (max_chars <? weight (buffer ++ [line])) && truthy buffer
    then (small ++ [join NL buffer], [line], weight [line])
    else (small, buffer ++ [line], weight (buffer ++ [line])).
Proof.
  unfold budget_step. rewrite weight_app, !weight_one. reflexivity.
Qed.

(** The loop keeps [buffer_len] equal to the weight of the buffer, and a
    buffer of two lines or more within the budget. *)
Lemma budget_loop (lines : list str) :
  forall small buffer,
    ((length buffer <= 1)%nat \/ weight buffer <= max_chars) ->
    exists gs rest,
      fold_left (budget_step max_chars) lines (small, buffer, weight buffer)
      = (small ++ map (join NL) gs, rest, weight rest)
      /\ concat gs ++ rest = buffer ++ lines
      /\ Forall (fun g => g <> []
                          /\ ((length g = 1)%nat \/ weight g <= max_chars)) gs
      /\ ((length rest <= 1)%nat \/ weight rest <= max_chars).
Proof.
  induction lines as [|line lines IH]; intros small buffer Hinv.
  - exists [], buffer. simpl. rewrite !app_nil_r. auto.
  - cbn [fold_left]. rewrite budget_step_eq.
    destruct (Z.ltb_spec max_chars (weight (buffer ++ [line]))) as [Hover|Hfit];
      [destruct buffer as [|b buffer]|]; cbn [truthy andb].
    + (* first line of an empty buffer, however long *)
      destruct (IH small [line]) as (gs & rest & Hf & Hc & Hg & Hr);
        [left; simpl; lia|].
      exists gs, rest. now repeat split.
    + (* flush *)
      destruct (IH (small ++ [join NL (b :: buffer)]) [line])
        as (gs & rest & Hf & Hc & Hg & Hr); [left; simpl; lia|].
      exists ((b :: buffer) :: gs), rest. repeat split; auto.
      * rewrite Hf. simpl map. now rewrite <- app_assoc.
      * cbn [concat]. rewrite <- !app_assoc. f_equal. exact Hc.
      * constructor; [|exact Hg]. split; [discriminate|].
        destruct Hinv as [H1|Hw]; [left; simpl in *; lia | now right].
    + destruct (IH small (buffer ++ [line])) as (gs & rest & Hf & Hc & Hg & Hr);
        [now right|].
      exists gs, rest. repeat split; auto.
      rewrite Hc. now rewrite <- app_assoc.
Qed.

End BudgetLoop.

(** What [split_large_chunk_by_token] returns. *)
Lemma split_large_chunk_by_token_groups (chunk : str) (max_tokens : Z) :
  exists groups,
    split_large_chunk_by_token chunk max_tokens = map (join NL) groups
    /\ concat groups = splitlines chunk
    /\ Forall (fun g => g <> []
                        /\ ((length g = 1)%nat
                            \/ weight g <= max_tokens * APPROX_CHARS_PER_TOKEN))
         groups.
Proof.
  unfold split_large_chunk_by_token.
  destruct (budget_loop (max_tokens * APPROX_CHARS_PER_TOKEN) (splitlines chunk) [] [])
    as (gs & rest & Hf & Hc & Hg & Hr); [left; simpl; lia|].
  change 0 with (weight []). rewrite Hf. simpl in Hc.
  exists (gs ++ (if truthy rest then [rest] else [])).
  rewrite <- map_join_tail, concat_tail. split; [|split].
  - simpl. destruct (truthy rest); [reflexivity | now rewrite app_nil_r].
  - exact Hc.
  - apply Forall_app. split; [exact Hg|].
    destruct rest as [|r rest]; [constructor|].
    simpl. constructor; [|constructor]. split; [discriminate|].
    destruct Hr as [H1|Hw]; [left; simpl in *; lia | now right].
Qed.

(** C9: when the only line terminator of a chunk is the newline and the chunk
    does not end in one, joining the sub-chunks of the budget splitter with a
    newline gives the chunk back, whatever the budget. *)
Theorem budget_split_round_trip (chunk : str) (max_tokens : Z) :
  (forall c, In c chunk -> is_linebreak c = true -> c = LF) ->
  (forall p, chunk <> p ++ [LF]) ->
  join NL (split_large_chunk_by_token chunk max_tokens) = chunk.
Proof.
  intros Hbr Hend.
  destruct (split_large_chunk_by_token_groups chunk max_tokens)
    as (groups & Hs & Hc & Hg).
  rewrite Hs, join_concat, Hc.
  - exact (join_splitlines_from chunk [] Hbr Hend).
  - eapply Forall_impl; [|exact Hg]. now intros g [Hne _].
Qed.

Lemma only_newline_breaks_check (chunk : str) :
  forallb (fun c => negb (is_linebreak c) || (c =? LF)%N) chunk = true ->
  forall c, In c chunk -> is_linebreak c = true -> c = LF.
Proof.
  intros H c Hin Hc. rewrite forallb_forall in H. specialize (H c Hin).
  rewrite Hc in H. simpl in H. now apply N.eqb_eq.
Qed.

Lemma no_final_newline_check (chunk : str) :
  (last chunk 0%N =? LF)%N = false -> forall p, chunk <> p ++ [LF].
Proof.
  intros H p ->. rewrite last_last in H. discriminate.
Qed.

Lemma budget_split_round_trip_witness :
  join NL (split_large_chunk_by_token (get_source_segment [] small_function) 5)
  = get_source_segment [] small_function.
Proof.
  apply budget_split_round_trip.
  - apply only_newline_breaks_check. vm_compute. reflexivity.
  - apply no_final_newline_check. vm_compute. reflexivity.
Defined.

(** ** The budget stage of [chunk_code] *)

Lemma budget_stage_from (l : list str) :
  forall acc,
    fold_left
      (fun final_chunks c =>
         if MAX_TOKENS * APPROX_CHARS_PER_TOKEN <? len c
         then final_chunks ++ split_large_chunk_by_token c MAX_TOKENS
         else final_chunks ++ [c])
      l acc
    = acc ++ flat_map final_pieces l.
Proof.
  induction l as [|c l IH]; intros acc; cbn [fold_left flat_map].
  - now rewrite app_nil_r.
  - rewrite IH. unfold final_pieces at 2.
    destruct (MAX_TOKENS * APPROX_CHARS_PER_TOKEN <? len c);
      now rewrite <- app_assoc.
Qed.

Lemma chunk_code_flat_map (source : str) (body : list stmt) (clusters : list (list str)) :
  chunk_code source body clusters
  = flat_map final_pieces (assemble source body clusters).
Proof. unfold chunk_code. now rewrite budget_stage_from. Qed.

Lemma split_large_chunk_by_token_nonempty (c : str) (max_tokens : Z) :
  c <> [] -> split_large_chunk_by_token c max_tokens <> [].
Proof.
  intros Hc Hnil.
  destruct (split_large_chunk_by_token_groups c max_tokens) as (groups & Hs & Hcat & _).
  rewrite Hnil in Hs. destruct groups; [|discriminate].
  simpl in Hcat. symmetry in Hcat.
  apply splitlines_from_nil in Hcat as [_ Hcat]. congruence.
Qed.

Lemma final_pieces_nonempty (c : str) : final_pieces c <> [].
Proof.
  unfold final_pieces.
  destruct (Z.ltb_spec (MAX_TOKENS * APPROX_CHARS_PER_TOKEN) (len c)) as [Hbig|_];
    [|discriminate].
  apply split_large_chunk_by_token_nonempty. intros ->. simpl in Hbig.
  unfold MAX_TOKENS, APPROX_CHARS_PER_TOKEN in Hbig. unfold len in Hbig. simpl in Hbig. lia.
Qed.

Lemma final_pieces_small (c : str) :
  len c <= MAX_TOKENS * APPROX_CHARS_PER_TOKEN -> final_pieces c = [c].
Proof.
  intros H. unfold final_pieces.
  destruct (Z.ltb_spec (MAX_TOKENS * APPROX_CHARS_PER_TOKEN) (len c)); [lia | reflexivity].
Qed.

Lemma assemble_nonempty (source : str) (body : list stmt) (clusters : list (list str)) :
  assemble source body clusters <> [].
Proof.
  unfold assemble.
  match goal with |- (if truthy ?x then _ else _) <> [] => destruct x eqn:E end;
    simpl; discriminate.
Qed.

(** C3: a chunk of the final sequence that has more than one line is at most
    [MAX_TOKENS * APPROX_CHARS_PER_TOKEN] characters long, and a chunk longer
    than that consists of a single line. *)
Theorem final_chunks_within_budget (source : str) (body : list stmt)
    (clusters : list (list str)) (c : str) :
  In c (chunk_code source body clusters) ->
  ((1 < length (splitlines c))%nat -> len c <= MAX_TOKENS * APPROX_CHARS_PER_TOKEN)
  /\ (MAX_TOKENS * APPROX_CHARS_PER_TOKEN < len c -> length (splitlines c) = 1%nat).
Proof.
  rewrite chunk_code_flat_map. intros Hin.
  apply in_flat_map in Hin as (c0 & _ & Hin). unfold final_pieces in Hin.
  destruct (Z.ltb_spec (MAX_TOKENS * APPROX_CHARS_PER_TOKEN) (len c0)) as [Hbig|Hsmall].
  - destruct (split_large_chunk_by_token_groups c0 MAX_TOKENS) as (groups & Hs & Hcat & Hg).
    rewrite Hs in Hin. apply in_map_iff in Hin as (g & <- & Hgin).
    rewrite Forall_forall in Hg. destruct (Hg g Hgin) as [Hne [Hone|Hw]].
    + destruct g as [|l [|? ?]]; try discriminate. simpl join.
      assert (Hl : Forall (fun c => is_linebreak c = false) l).
      { pose proof (splitlines_no_break c0) as Hnb. rewrite <- Hcat in Hnb.
        rewrite Forall_forall in Hnb. apply Hnb.
        apply in_concat. exists [l]. split; [exact Hgin | now left]. }
      unfold splitlines. rewrite (splitlines_from_one_line l [] Hl). simpl app.
      split.
      * destruct (truthy l); simpl; lia.
      * intros Hlong. destruct l; [|reflexivity].
        unfold MAX_TOKENS, APPROX_CHARS_PER_TOKEN, len in Hlong. simpl in Hlong. lia.
    + rewrite len_join by exact Hne. split; intros; lia.
  - destruct Hin as [<-|[]]. split; intros; lia.
Qed.

(** On a function of 1302 lines, the first of the two final chunks has more
    than one line and stays within the budget. *)
Lemma final_chunks_within_budget_witness :
  let chunks :=
    chunk_code (get_source_segment [] long_function) [long_function] [[py "f"]] in
  In (nth 0 chunks []) chunks
  /\ (1 < length (splitlines (nth 0 chunks [])))%nat
  /\ len (nth 0 chunks []) <= MAX_TOKENS * APPROX_CHARS_PER_TOKEN.
Proof.
  intros chunks.
  assert (Hin : In (nth 0 chunks []) chunks) by (vm_compute; left; reflexivity).
  assert (Hlines : (1 < length (splitlines (nth 0 chunks [])))%nat)
    by (apply Nat.ltb_lt; vm_compute; reflexivity).
  split; [exact Hin|]. split; [exact Hlines|].
  exact (proj1 (final_chunks_within_budget _ _ _ _ Hin) Hlines).
Defined.

(** ** The graph *)

Lemma str_eqb_eq (a b : str) : str_eqb a b = true <-> a = b.
Proof.
  unfold str_eqb. destruct (list_eq_dec N.eq_dec a b); split; congruence.
Qed.

Lemma str_eqb_refl (a : str) : str_eqb a a = true.
Proof. now apply str_eqb_eq. Qed.

Lemma str_eqb_neq (a b : str) : str_eqb a b = false <-> a <> b.
Proof.
  unfold str_eqb. destruct (list_eq_dec N.eq_dec a b); split; congruence.
Qed.

Lemma mem_In (x : str) (l : list str) : mem x l = true <-> In x l.
Proof.
  unfold mem. rewrite existsb_exists. split.
  - intros (y & Hin & Heq). apply str_eqb_eq in Heq. now subst.
  - intros Hin. exists x. split; [exact Hin | apply str_eqb_refl].
Qed.

Lemma mem_not_In (x : str) (l : list str) : mem x l = false <-> ~ In x l.
Proof.
  rewrite <- mem_In. destruct (mem x l); split; congruence.
Qed.

Lemma add_node_nodes (n v : str) (g : DiGraph) :
  In v (nodes (add_node n g)) <-> v = n \/ In v (nodes g).
Proof.
  unfold add_node. destruct (mem n (nodes g)) eqn:Hm.
  - apply mem_In in Hm. split; [auto | intros [->|H]; auto].
  - simpl. rewrite in_app_iff. simpl. intuition congruence.
Qed.

Lemma add_node_edges (n : str) (g : DiGraph) : edges (add_node n g) = edges g.
Proof. unfold add_node. now destruct (mem n (nodes g)). Qed.

Lemma add_edge_nodes (u v w : str) (g : DiGraph) :
  In w (nodes (add_edge u v g)) <-> w = u \/ w = v \/ In w (nodes g).
Proof.
  unfold add_edge.
  destruct (existsb (edge_eqb (u, v)) (edges (add_node v (add_node u g))));
    cbn [nodes]; rewrite !add_node_nodes; intuition.
Qed.

Lemma add_edge_edges (u v : str) (e : str * str) (g : DiGraph) :
  In e (edges (add_edge u v g)) <-> e = (u, v) \/ In e (edges g).
Proof.
  unfold add_edge.
  destruct (existsb (edge_eqb (u, v)) (edges (add_node v (add_node u g)))) eqn:Hex;
    cbn [edges]; rewrite ?in_app_iff, !add_node_edges in *.
  - split; [auto|]. intros [->|H]; [|exact H].
    apply existsb_exists in Hex as ([a b] & Hin & Heq).
    unfold edge_eqb in Heq. simpl in Heq. apply andb_prop in Heq as [Ha Hb].
    apply str_eqb_eq in Ha, Hb. now subst.
  - simpl. intuition.
Qed.

(** ** The visitor *)

Lemma node_induction (P : node -> Prop) :
  (forall name children, Forall P children -> P (FunctionDef name children)) ->
  (forall func args, P func -> Forall P args -> P (Call func args)) ->
  (forall id, P (Name id)) ->
  (forall children, Forall P children -> P (Other children)) ->
  forall n, P n.
Proof.
  intros HF HC HN HO.
  fix rec 1. intros [name children | func args | id | children].
  - apply HF. induction children as [|c cs IH]; constructor; [apply rec | exact IH].
  - apply HC; [apply rec|].
    induction args as [|c cs IH]; constructor; [apply rec | exact IH].
  - apply HN.
  - apply HO. induction children as [|c cs IH]; constructor; [apply rec | exact IH].
Qed.

(** A property every visit of a child preserves survives the visit of all the
    children. *)
Lemma fold_visit_preserves (P : builder -> Prop) (children : list node) :
  (forall n, In n children -> forall b, P b -> P (visit n b)) ->
  forall b, P b -> P (fold_left (fun b child => visit child b) children b).
Proof.
  induction children as [|c cs IH]; intros Hall b Hb; simpl; [exact Hb|].
  apply IH.
  - intros n Hn. apply Hall. now right.
  - apply Hall; [now left | exact Hb].
Qed.

(** A property established by the visit of one child, in a state every
    earlier child leaves as it should be, and kept by the later ones. *)
Lemma fold_visit_reaches (Q P : builder -> Prop) (children : list node) (c : node) :
  In c children ->
  (forall n, In n children -> forall b, Q b -> Q (visit n b)) ->
  (forall b, Q b -> P (visit c b)) ->
  (forall n b, P b -> P (visit n b)) ->
  forall b, Q b -> P (fold_left (fun b child => visit child b) children b).
Proof.
  intros Hin HQ HP Hkeep b Hb.
  apply in_split in Hin as (l1 & l2 & ->).
  rewrite fold_left_app. cbn [fold_left].
  apply fold_visit_preserves; [intros n _; apply Hkeep|].
  apply HP. apply fold_visit_preserves; [|exact Hb].
  intros n Hn. apply HQ. apply in_or_app. now left.
Qed.

(** The visitor never removes a node of the graph. *)
Lemma visit_keeps_nodes (v : str) (n : node) :
  forall b, In v (nodes (graph b)) -> In v (nodes (graph (visit n b))).
Proof.
  induction n as [name children IH | func args IHf IHa | id | children IH]
    using node_induction; intros b Hv; cbn [visit].
  - rewrite Forall_forall in IH. apply fold_visit_preserves; [exact IH|].
    cbn [graph]. apply add_node_nodes. now right.
  - rewrite Forall_forall in IHa. apply fold_visit_preserves; [exact IHa|].
    apply IHf. destruct (is_Name func), (current_truthy b); try exact Hv.
    cbn [graph]. apply add_edge_nodes. auto.
  - exact Hv.
  - rewrite Forall_forall in IH. now apply fold_visit_preserves.
Qed.

(** Visiting a function definition puts its name in the graph. *)
Lemma visit_FunctionDef_adds (name : str) (children : list node) (b : builder) :
  In name (nodes (graph (visit (FunctionDef name children) b))).
Proof.
  cbn [visit]. apply fold_visit_preserves.
  - intros n _. apply visit_keeps_nodes.
  - cbn [graph]. apply add_node_nodes. now left.
Qed.

Lemma visit_module_eq (body : list stmt) (b : builder) :
  fold_left (fun b st => visit (ast st) b) body b
  = fold_left (fun b child => visit child b) (map ast body) b.
Proof.
  revert b. induction body as [|st body IH]; intros b; simpl; [reflexivity | apply IH].
Qed.

Lemma in_top_level_functions (body : list stmt) (f : str) :
  In f (top_level_functions body)
  <-> exists st, In st body /\ function_name (ast st) = Some f.
Proof.
  unfold top_level_functions. rewrite in_flat_map. split.
  - intros (st & Hin & Hf). exists st. split; [exact Hin|].
    destruct (function_name (ast st)); simpl in Hf; [|contradiction].
    destruct Hf as [->|[]]. reflexivity.
  - intros (st & Hin & Hf). exists st. split; [exact Hin|]. rewrite Hf. now left.
Qed.

(** Every top-level function name is a node of the graph. *)
Lemma top_level_functions_are_nodes (body : list stmt) (f : str) :
  In f (top_level_functions body) -> In f (nodes (build_graph body)).
Proof.
  rewrite in_top_level_functions. intros (st & Hin & Hf).
  unfold build_graph, visit_module. rewrite visit_module_eq.
  apply (fold_visit_reaches (fun _ => True) (fun b => In f (nodes (graph b)))
           (map ast body) (ast st)); auto.
  - now apply in_map.
  - intros b _. destruct (ast st); try discriminate.
    simpl in Hf. inversion Hf; subst. apply visit_FunctionDef_adds.
  - intros n b. apply visit_keeps_nodes.
Qed.

(** Once a named function definition has been entered, the current function
    stays set: nothing clears it. *)
Lemma visit_live (n : node) :
  named n = true -> forall b, live b -> live (visit n b).
Proof.
  induction n as [name children IH | func args IHf IHa | id | children IH]
    using node_induction; intros Hnamed b Hb; cbn [visit]; cbn [named] in Hnamed.
  - apply andb_prop in Hnamed as [Hname Hch].
    rewrite Forall_forall in IH. rewrite forallb_forall in Hch.
    apply fold_visit_preserves; [intros n Hn; apply IH; auto|].
    unfold live, current_truthy. cbn [current_function]. rewrite Hname. discriminate.
  - apply andb_prop in Hnamed as [Hf Ha].
    rewrite Forall_forall in IHa. rewrite forallb_forall in Ha.
    apply fold_visit_preserves; [intros n Hn; apply IHa; auto|].
    apply IHf; [exact Hf|].
    destruct (is_Name func), (current_truthy b) eqn:Hc; exact Hb.
  - exact Hb.
  - rewrite Forall_forall in IH. rewrite forallb_forall in Hnamed.
    apply fold_visit_preserves; [intros n Hn; apply IH; auto | exact Hb].
Qed.

(** While the current function is set, the callee of every call to a simple
    name becomes a node of the graph. *)
Lemma fold_records_call (p : str) (children : list node) (c : node) :
  In c children ->
  (forall n, In n children -> named n = true) ->
  (forall b, live b -> In p (nodes (graph (visit c b)))) ->
  forall b, live b ->
    In p (nodes (graph (fold_left (fun b child => visit child b) children b))).
Proof.
  intros Hc Hnamed Hrec.
  apply (fold_visit_reaches live (fun b => In p (nodes (graph b))) children c).
  - exact Hc.
  - intros n Hn. apply visit_live. now apply Hnamed.
  - exact Hrec.
  - intros n b. apply visit_keeps_nodes.
Qed.

Lemma live_after_def (name : str) (g : DiGraph) :
  truthy name = true -> live (Builder g (Some name)).
Proof.
  intros Hname. unfold live, current_truthy. cbn [current_function].
  rewrite Hname. discriminate.
Qed.

Lemma visit_records_call (p : str) (n : node) :
  named n = true -> has_call p n = true ->
  forall b, live b -> In p (nodes (graph (visit n b))).
Proof.
  induction n as [name children IH | func args IHf IHa | id | children IH]
    using node_induction; intros Hnamed Hcall b Hb;
    cbn [visit]; cbn [named] in Hnamed; cbn [has_call] in Hcall.
  - apply andb_prop in Hnamed as [Hname Hch].
    rewrite Forall_forall in IH. rewrite forallb_forall in Hch.
    apply existsb_exists in Hcall as (c & Hc & Hcall).
    apply (fold_records_call p children c Hc Hch).
    + intros b' Hb'. apply IH; auto.
    + now apply live_after_def.
  - apply andb_prop in Hnamed as [Hf Ha].
    rewrite Forall_forall in IHa. rewrite forallb_forall in Ha.
    set (b1 := match is_Name func, current_truthy b with
               | Some id, Some f => Builder (add_edge f id (graph b)) (current_function b)
               | _, _ => b
               end).
    assert (Hb1 : live b1).
    { subst b1. destruct (is_Name func), (current_truthy b) eqn:Hc; exact Hb. }
    apply orb_prop in Hcall as [Hcall|Hcall]; [apply orb_prop in Hcall as [Hcall|Hcall]|].
    + (* the call itself *)
      apply fold_visit_preserves; [intros n _; apply visit_keeps_nodes|].
      apply visit_keeps_nodes. subst b1.
      destruct (is_Name func) as [id|]; [|discriminate].
      apply str_eqb_eq in Hcall. subst id.
      unfold live in Hb. destruct (current_truthy b) as [f|]; [|congruence].
      cbn [graph]. apply add_edge_nodes. auto.
    + (* a call inside the callee expression *)
      apply fold_visit_preserves; [intros n _; apply visit_keeps_nodes|].
      now apply IHf.
    + (* a call inside an argument *)
      apply existsb_exists in Hcall as (c & Hc & Hcall).
      apply (fold_records_call p args c Hc Ha).
      * intros b' Hb'. apply IHa; auto.
      * now apply visit_live.
  - discriminate.
  - rewrite Forall_forall in IH. rewrite forallb_forall in Hnamed.
    apply existsb_exists in Hcall as (c & Hc & Hcall).
    apply (fold_records_call p children c Hc Hnamed); [|exact Hb].
    intros b' Hb'. apply IH; auto.
Qed.

(** The callee of a call inside a top-level function is a node of the
    graph. *)
Lemma called_names_are_nodes (body : list stmt) (st : stmt) (p : str) :
  In st body -> function_name (ast st) <> None ->
  named (ast st) = true -> has_call p (ast st) = true ->
  In p (nodes (build_graph body)).
Proof.
  intros Hin Hf Hnamed Hcall.
  unfold build_graph, visit_module. rewrite visit_module_eq.
  apply (fold_visit_reaches (fun _ => True) (fun b => In p (nodes (graph b)))
           (map ast body) (ast st)).
  - now apply in_map.
  - auto.
  - intros b _. destruct (ast st) as [name children| | |] eqn:Hast;
      try (simpl in Hf; congruence).
    cbn [named] in Hnamed. apply andb_prop in Hnamed as [Hname Hch].
    rewrite forallb_forall in Hch.
    cbn [has_call] in Hcall. apply existsb_exists in Hcall as (c & Hc & Hcall).
    cbn [visit].
    apply (fold_records_call p children c Hc Hch).
    + intros b' Hb'. apply visit_records_call; auto.
    + now apply live_after_def.
  - intros n b. apply visit_keeps_nodes.
  - exact I.
Qed.

(** C1, on the nested sample: the call inside [inner], the call of [outer]
    that follows the nested definition and the call at module level are all
    recorded with [inner] as caller; no edge has [outer] as caller, and the
    module-level call does produce an edge. *)
Theorem builder_attributes_calls_to_last_definition :
  edges (build_graph nested_body)
  = [(py "inner", py "helper"); (py "inner", py "other"); (py "inner", py "late")]
  /\ nodes (build_graph nested_body)
     = [py "outer"; py "inner"; py "helper"; py "other"; py "late"]
  /\ top_level_functions nested_body = [py "outer"]
  /\ ~ In (py "outer", py "helper") (edges (build_graph nested_body)).
Proof.
  repeat split; try reflexivity.
  vm_compute. intros [H|[H|[H|[]]]]; discriminate.
Qed.

(** ** The dictionary of top-level functions *)

Lemma dict_get_set (k k' : str) (v : stmt) (d : list (str * stmt)) :
  dict_get k (dict_set k' v d)
  = if str_eqb k k' then Some v else dict_get k d.
Proof.
  induction d as [|[k0 v0] d IH]; simpl.
  - reflexivity.
  - destruct (str_eqb k' k0) eqn:H0; simpl.
    + apply str_eqb_eq in H0. subst k0. now destruct (str_eqb k k').
    + destruct (str_eqb k k0) eqn:H1; [|exact IH].
      destruct (str_eqb k k') eqn:H2; [|reflexivity].
      apply str_eqb_eq in H1, H2. subst. rewrite str_eqb_refl in H0. discriminate.
Qed.

Lemma func_nodes_none_from (body : list stmt) (k : str) :
  forall d,
    dict_get k
      (fold_left
         (fun d st => match function_name (ast st) with
                      | Some name => dict_set name st d
                      | None => d
                      end) body d) = None
    <-> dict_get k d = None /\ ~ In k (top_level_functions body).
Proof.
  induction body as [|st body IH]; intros d; cbn [fold_left].
  - simpl. tauto.
  - rewrite IH. unfold top_level_functions. cbn [flat_map].
    fold (top_level_functions body). rewrite in_app_iff.
    destruct (function_name (ast st)) as [name|]; simpl.
    + rewrite dict_get_set. destruct (str_eqb k name) eqn:Hk.
      * apply str_eqb_eq in Hk. subst. split; [intros [? _]; discriminate | tauto].
      * apply str_eqb_neq in Hk. intuition congruence.
    + tauto.
Qed.

(** A name has no entry in [func_nodes] exactly when no top-level function
    bears it. *)
Lemma func_nodes_none (body : list stmt) (k : str) :
  dict_get k (func_nodes body) = None <-> ~ In k (top_level_functions body).
Proof.
  unfold func_nodes. rewrite func_nodes_none_from. simpl. tauto.
Qed.

(** ** Checking a component listing *)

Lemma successors_edge (g : DiGraph) (R : list str) (w : str) :
  In w (successors g R) -> exists v, In v R /\ edge g v w.
Proof.
  unfold successors. rewrite in_map_iff. intros ([a b] & Heq & Hin).
  simpl in Heq. subst b. apply filter_In in Hin as [Hin Hm].
  simpl in Hm. apply mem_In in Hm. now exists a.
Qed.

Lemma reach_iter_sound (g : DiGraph) (u : str) (fuel : nat) :
  forall R, (forall w, In w R -> reachable g u w) ->
    forall w, In w (reach_iter g fuel R) -> reachable g u w.
Proof.
  induction fuel as [|fuel IH]; intros R HR w Hw; simpl in Hw; [now apply HR|].
  apply IH in Hw; [exact Hw|].
  intros x Hx. apply in_app_or in Hx as [Hx|Hx]; [now apply HR|].
  apply filter_In in Hx as [Hx _].
  apply successors_edge in Hx as (v & Hv & He).
  eapply rt_trans; [apply HR, Hv | now apply rt_step].
Qed.

Lemma reach_iter_grows (g : DiGraph) (fuel : nat) :
  forall R w, In w R -> In w (reach_iter g fuel R).
Proof.
  induction fuel as [|fuel IH]; intros R w Hw; simpl; [exact Hw|].
  apply IH. apply in_or_app. now left.
Qed.

Lemma closed_complete (g : DiGraph) (R : list str) (u v : str) :
  closedb g R = true -> In u R -> reachable g u v -> In v R.
Proof.
  intros Hcl Hu Hreach. apply clos_rt_rt1n in Hreach.
  induction Hreach as [|x y z Hxy _ IH]; [exact Hu|].
  apply IH. unfold closedb in Hcl. rewrite forallb_forall in Hcl.
  specialize (Hcl (x, y) Hxy). simpl in Hcl.
  apply mem_In in Hu. rewrite Hu in Hcl. now apply mem_In.
Qed.

Lemma reach_set_spec (g : DiGraph) (u v : str) :
  closedb g (reach_set g u) = true ->
  (mem v (reach_set g u) = true <-> reachable g u v).
Proof.
  intros Hcl. rewrite mem_In. split.
  - apply reach_iter_sound. intros w [<-|[]]. apply rt_refl.
  - apply closed_complete; [exact Hcl|]. apply reach_iter_grows. now left.
Qed.

Lemma nodupb_NoDup (l : list str) : nodupb l = true -> NoDup l.
Proof.
  induction l as [|x l IH]; simpl; intros H; constructor.
  - apply andb_prop in H as [H _]. apply negb_true_iff in H. now apply mem_not_In.
  - apply IH. now apply andb_prop in H as [_ H].
Qed.

Lemma in_indexed_from {A : Type} (l : list A) :
  forall s i x, nth_error l i = Some x ->
    In ((s + i)%nat, x) (combine (seq s (length l)) l).
Proof.
  induction l as [|y l IH]; intros s i x Hi; [destruct i; discriminate|].
  destruct i as [|i]; simpl in Hi.
  - inversion Hi; subst. simpl. left. f_equal. lia.
  - simpl. right. replace (s + S i)%nat with (S s + i)%nat by lia. now apply IH.
Qed.

Lemma in_indexed {A : Type} (l : list A) (i : nat) (x : A) :
  nth_error l i = Some x -> In (i, x) (indexed l).
Proof. intros H. exact (in_indexed_from l 0 i x H). Qed.

(** A listing the checker accepts meets the contract. *)
Lemma scc_check_sound (g : DiGraph) (cs : list (list str)) :
  scc_check g cs = true -> scc_listing g cs.
Proof.
  unfold scc_check. intros H.
  apply andb_prop in H as [H Hclasses]. apply andb_prop in H as [H Hclosed].
  apply andb_prop in H as [H Hsets]. apply andb_prop in H as [Hcov1 Hcov2].
  rewrite forallb_forall in Hcov1, Hcov2, Hsets, Hclosed, Hclasses.
  constructor.
  - intros v. split.
    + intros Hv. apply Hcov1, mem_In, in_concat in Hv as (c & Hc & Hv). eauto.
    + intros (c & Hc & Hv). apply mem_In, Hcov2. apply in_concat. eauto.
  - intros c Hc. apply Hsets in Hc. apply andb_prop in Hc as [Hne Hnd].
    split; [now apply truthy_true | now apply nodupb_NoDup].
  - intros i j ci cj u v Hi Hj Hu Hv.
    apply in_indexed in Hi, Hj.
    specialize (Hclasses _ Hi). rewrite forallb_forall in Hclasses.
    specialize (Hclasses _ Hj). rewrite forallb_forall in Hclasses.
    specialize (Hclasses _ Hu). rewrite forallb_forall in Hclasses.
    specialize (Hclasses _ Hv). cbn [fst snd] in *.
    apply in_combine_r in Hi, Hj.
    assert (Hcu : closedb g (reach_set g u) = true)
      by (apply Hclosed, in_concat; eauto).
    assert (Hcv : closedb g (reach_set g v) = true)
      by (apply Hclosed, in_concat; eauto).
    apply eqb_prop in Hclasses. unfold mutually_reachable.
    rewrite <- (reach_set_spec g u v Hcu), <- (reach_set_spec g v u Hcv).
    rewrite <- andb_true_iff, <- Hclasses. apply iff_sym, Nat.eqb_eq.
Qed.

(** A listing is checked by evaluation. *)
Ltac check_listing := apply scc_check_sound; vm_compute; reflexivity.

(** ** Consequences of the contract *)

Lemma mutually_reachable_refl (g : DiGraph) (v : str) : mutually_reachable g v v.
Proof. split; apply rt_refl. Qed.

Lemma all_same_nodup (c : list str) (p : str) :
  c <> [] -> NoDup c -> (forall v, In v c -> v = p) -> c = [p].
Proof.
  intros Hne Hnd Hall. destruct c as [|a [|b c]]; [congruence| |].
  - f_equal. apply Hall. now left.
  - assert (a = p) by (apply Hall; now left).
    assert (b = p) by (apply Hall; right; now left).
    subst. inversion Hnd as [|? ? Hnot _]; subst. elim Hnot. now left.
Qed.

Lemma single_index {A : Type} (l : list A) (i : nat) (x : A) :
  nth_error l i = Some x ->
  (forall j y, nth_error l j = Some y -> j = i) ->
  l = [x].
Proof.
  destruct l as [|a [|b l]]; intros Hi Hall.
  - destruct i; discriminate.
  - assert (H0 : 0%nat = i) by (apply (Hall 0%nat a); reflexivity).
    subst i. simpl in Hi. congruence.
  - assert (H0 : 0%nat = i) by (apply (Hall 0%nat a); reflexivity).
    assert (H1 : 1%nat = i) by (apply (Hall 1%nat b); reflexivity).
    lia.
Qed.

Section Contract.

Variable g : DiGraph.
Variable cs : list (list str).
Hypothesis Hscc : scc_listing g cs.

(** A node lies in one cluster only. *)
Lemma scc_disjoint (i j : nat) (ci cj : list str) (v : str) :
  nth_error cs i = Some ci -> nth_error cs j = Some cj ->
  In v ci -> In v cj -> i = j.
Proof.
  intros Hi Hj Hvi Hvj.
  apply (scc_classes g cs Hscc i j ci cj v v Hi Hj Hvi Hvj).
  apply mutually_reachable_refl.
Qed.

(** A node mutually reachable with no other node is listed as a cluster of
    its own. *)
Lemma scc_singleton (p : str) :
  In p (nodes g) ->
  (forall v, mutually_reachable g p v -> v = p) ->
  In [p] cs.
Proof.
  intros Hp Halone.
  apply (scc_cover _ _ Hscc) in Hp as (c & Hc & Hpc).
  destruct (scc_sets _ _ Hscc c Hc) as [Hne Hnd].
  assert (Hall : forall v, In v c -> v = p).
  { intros v Hv. apply Halone.
    destruct (In_nth_error _ _ Hc) as (i & Hi).
    now apply (scc_classes g cs Hscc i i c c p v Hi Hi Hpc Hv). }
  now rewrite <- (all_same_nodup c p Hne Hnd Hall).
Qed.

(** A graph of one node has one cluster. *)
Lemma scc_listing_single (f : str) : nodes g = [f] -> cs = [[f]].
Proof.
  intros Hn.
  assert (Hall : forall c, In c cs -> c = [f]).
  { intros c Hc. destruct (scc_sets _ _ Hscc c Hc) as [Hne Hnd].
    apply all_same_nodup; auto. intros v Hv.
    assert (Hin : In v (nodes g)) by (apply (scc_cover _ _ Hscc); eauto).
    rewrite Hn in Hin. destruct Hin as [<-|[]]. reflexivity. }
  assert (Hf : In f (nodes g)) by (rewrite Hn; now left).
  apply (scc_cover _ _ Hscc) in Hf as (c & Hc & _).
  destruct (In_nth_error _ _ Hc) as (i & Hi).
  rewrite (Hall c Hc) in Hi.
  apply (single_index cs i [f] Hi).
  intros j c' Hj.
  rewrite (Hall c' (nth_error_In _ _ Hj)) in Hj.
  apply (scc_disjoint j i [f] [f] f Hj Hi); now left.
Qed.

End Contract.

(** The empty graph has no cluster. *)
Lemma scc_listing_empty (cs : list (list str)) :
  scc_listing empty_graph cs -> cs = [].
Proof.
  intros H. destruct cs as [|c cs]; [reflexivity|].
  destruct (scc_sets _ _ H c) as [Hne _]; [now left|].
  destruct c as [|v c]; [congruence|].
  assert (Hin : In v (nodes empty_graph)).
  { apply (scc_cover _ _ H). exists (v :: c). split; now left. }
  destruct Hin.
Qed.

(** ** Every graph has a listing of its components *)

Lemma closedb_spec (g : DiGraph) (R : list str) :
  closedb g R = true <-> forall a b, edge g a b -> In a R -> In b R.
Proof.
  unfold closedb. rewrite forallb_forall. split.
  - intros H a b Hab Ha. specialize (H (a, b) Hab). simpl in H.
    apply mem_In in Ha. rewrite Ha in H. now apply mem_In.
  - intros H [a b] Hab. simpl. destruct (mem a R) eqn:Ha; [|reflexivity].
    simpl. apply mem_In. apply (H a b Hab). now apply mem_In.
Qed.

Lemma successors_spec (g : DiGraph) (R : list str) (w : str) :
  In w (successors g R) <-> exists v, In v R /\ edge g v w.
Proof.
  split; [apply successors_edge|]. intros (v & Hv & He).
  unfold successors. apply in_map_iff. exists (v, w). split; [reflexivity|].
  apply filter_In. split; [exact He | now apply mem_In].
Qed.

Lemma reach_iter_closed (g : DiGraph) (fuel : nat) (R : list str) :
  closedb g R = true -> reach_iter g fuel R = R.
Proof.
  intros Hcl. induction fuel as [|fuel IH]; [reflexivity|]. simpl.
  replace (filter (fun w => negb (mem w R)) (successors g R)) with (@nil str).
  - now rewrite app_nil_r.
  - symmetry. pose proof (proj1 (closedb_spec g R) Hcl) as Hcl'.
    destruct (filter (fun w => negb (mem w R)) (successors g R)) as [|w l] eqn:Hf;
      [reflexivity|].
    assert (Hw : In w (filter (fun w => negb (mem w R)) (successors g R)))
      by (rewrite Hf; now left).
    apply filter_In in Hw as [Hw Hnot].
    apply successors_edge in Hw as (v & Hv & He).
    apply negb_true_iff, mem_not_In in Hnot. elim Hnot. eauto.
Qed.

Lemma filter_length_mono {A : Type} (p q : A -> bool) (l : list A) :
  (forall x, In x l -> p x = true -> q x = true) ->
  (length (filter p l) <= length (filter q l))%nat.
Proof.
  induction l as [|x l IH]; intros H; simpl; [lia|].
  assert (IH' : (length (filter p l) <= length (filter q l))%nat)
    by (apply IH; intros y Hy; apply H; now right).
  destruct (p x) eqn:Hp.
  - rewrite (H x (or_introl eq_refl) Hp). simpl. lia.
  - destruct (q x); simpl; lia.
Qed.

Lemma filter_length_lt {A : Type} (p q : A -> bool) (l : list A) (w : A) :
  (forall x, In x l -> p x = true -> q x = true) ->
  In w l -> p w = false -> q w = true ->
  (length (filter p l) < length (filter q l))%nat.
Proof.
  induction l as [|x l IH]; intros H Hw Hpw Hqw; [destruct Hw|]. simpl.
  assert (Hle : (length (filter p l) <= length (filter q l))%nat)
    by (apply filter_length_mono; intros y Hy; apply H; now right).
  destruct Hw as [->|Hw].
  - rewrite Hpw, Hqw. simpl. lia.
  - assert (IH' : (length (filter p l) < length (filter q l))%nat)
      by (apply IH; auto; intros y Hy; apply H; now right).
    destruct (p x) eqn:Hp.
    + rewrite (H x (or_introl eq_refl) Hp). simpl. lia.
    + destruct (q x); simpl; lia.
Qed.

(** With as much fuel as there are nodes outside the set, the iteration ends
    on a set closed under the edges. *)
Lemma reach_iter_closes (g : DiGraph) :
  (forall u v, In (u, v) (edges g) -> In v (nodes g)) ->
  forall fuel R, (missing g R <= fuel)%nat ->
    closedb g (reach_iter g fuel R) = true.
Proof.
  intros Hok. induction fuel as [|fuel IH]; intros R Hm.
  - simpl. apply closedb_spec. intros a b Hab Ha.
    destruct (mem b R) eqn:Hb; [now apply mem_In|].
    assert (Hin : In b (filter (fun v => negb (mem v R)) (nodes g))).
    { apply filter_In. split; [eapply Hok; exact Hab | now rewrite Hb]. }
    unfold missing in Hm.
    destruct (filter (fun v => negb (mem v R)) (nodes g)); [destruct Hin | simpl in Hm; lia].
  - destruct (closedb g R) eqn:Hcl; [now rewrite reach_iter_closed|].
    simpl. apply IH.
    assert (Hex : exists a b, edge g a b /\ In a R /\ ~ In b R).
    { unfold closedb in Hcl.
      destruct (forallb_forall (fun e : str * str => implb (mem (fst e) R) (mem (snd e) R))
                  (edges g)) as [_ Hall].
      destruct (existsb (fun e : str * str => negb (implb (mem (fst e) R) (mem (snd e) R)))
                  (edges g)) eqn:Hex.
      - apply existsb_exists in Hex as ([a b] & Hab & Hno). simpl in Hno.
        exists a, b. destruct (mem a R) eqn:Ha, (mem b R) eqn:Hb; try discriminate.
        split; [exact Hab|]. split; [now apply mem_In | now apply mem_not_In].
      - rewrite Hall in Hcl; [discriminate|].
        intros e He. destruct (implb (mem (fst e) R) (mem (snd e) R)) eqn:Hi; [reflexivity|].
        assert (Habs : existsb (fun e : str * str =>
                                  negb (implb (mem (fst e) R) (mem (snd e) R)))
                         (edges g) = true).
        { apply existsb_exists. exists e. split; [exact He | now rewrite Hi]. }
        congruence. }
    destruct Hex as (a & b & Hab & Ha & Hb).
    set (R' := R ++ filter (fun w => negb (mem w R)) (successors g R)).
    assert (Hlt : (missing g R' < missing g R)%nat).
    { unfold missing. apply (filter_length_lt _ _ _ b).
      - intros x _ Hx. apply negb_true_iff, mem_not_In in Hx.
        apply negb_true_iff, mem_not_In. intros Hin. apply Hx.
        unfold R'. apply in_or_app. now left.
      - eapply Hok. exact Hab.
      - apply negb_false_iff, mem_In. unfold R'. apply in_or_app. right.
        apply filter_In. split.
        + apply successors_spec. eauto.
        + now apply negb_true_iff, mem_not_In.
      - now apply negb_true_iff, mem_not_In. }
    lia.
Qed.

Lemma missing_le_nodes (g : DiGraph) (R : list str) :
  (missing g R <= length (nodes g))%nat.
Proof. unfold missing. apply filter_length_le. Qed.

(** On a graph whose edges end in nodes, [reach_set] decides
    reachability. *)
Lemma reach_set_correct (g : DiGraph) (u v : str) :
  graph_ok g -> (mem v (reach_set g u) = true <-> reachable g u v).
Proof.
  intros [_ Hok]. apply reach_set_spec. unfold reach_set.
  apply reach_iter_closes; [intros a b Hab; now apply (Hok a b) | apply missing_le_nodes].
Qed.

Lemma mutually_reachable_sym (g : DiGraph) (u v : str) :
  mutually_reachable g u v -> mutually_reachable g v u.
Proof. intros [H1 H2]. now split. Qed.

Lemma mutually_reachable_trans (g : DiGraph) (u v w : str) :
  mutually_reachable g u v -> mutually_reachable g v w -> mutually_reachable g u w.
Proof.
  intros [H1 H2] [H3 H4]. split; eapply rt_trans; eauto.
Qed.

Lemma in_component (g : DiGraph) (u v : str) :
  graph_ok g ->
  (In v (component g u) <-> In v (nodes g) /\ mutually_reachable g u v).
Proof.
  intros Hok. unfold component, mutually_reachable.
  rewrite filter_In, andb_true_iff.
  now rewrite (reach_set_correct g u v Hok), (reach_set_correct g v u Hok).
Qed.

Lemma nth_error_snoc {A : Type} (l : list A) (x y : A) (i : nat) :
  nth_error (l ++ [x]) i = Some y ->
  nth_error l i = Some y \/ (i = length l /\ y = x).
Proof.
  intros H. destruct (Nat.lt_ge_cases i (length l)) as [Hlt|Hge].
  - left. now rewrite nth_error_app1 in H.
  - right. rewrite nth_error_app2 in H by exact Hge.
    destruct (i - length l)%nat as [|k] eqn:Hk; simpl in H.
    + inversion H. split; [lia | reflexivity].
    + destruct k; discriminate.
Qed.

Lemma nth_error_lt {A : Type} (l : list A) (x : A) (i : nat) :
  nth_error l i = Some x -> (i < length l)%nat.
Proof. intros H. apply nth_error_Some. congruence. Qed.

Lemma components_step_inv (g : DiGraph) (found : list (list str)) (u : str) :
  graph_ok g -> In u (nodes g) -> listing_inv g found ->
  listing_inv g (components_step g found u)
  /\ In u (concat (components_step g found u))
  /\ (forall x, In x (concat found) -> In x (concat (components_step g found u))).
Proof.
  intros Hok Hu [Hcomp Hsep]. unfold components_step.
  destruct (mem u (concat found)) eqn:Hm.
  - apply mem_In in Hm. repeat split; auto.
  - apply mem_not_In in Hm.
    assert (Hself : In u (component g u)).
    { apply in_component; [exact Hok|]. split; [exact Hu | apply mutually_reachable_refl]. }
    assert (Hfresh : forall c x y, In c found -> In x c ->
                       In y (component g u) -> ~ mutually_reachable g x y).
    { intros c x y Hc Hx Hy Hxy. apply Hm. apply in_concat. exists c. split; [exact Hc|].
      destruct (Hcomp c Hc) as (r & Hr & ->).
      apply (in_component g r x Hok) in Hx as [_ Hrx].
      apply (in_component g u y Hok) in Hy as [_ Huy].
      apply in_component; [exact Hok|]. split; [exact Hu|].
      eapply mutually_reachable_trans; [exact Hrx|].
      eapply mutually_reachable_trans; [exact Hxy|].
      now apply mutually_reachable_sym. }
    split; [split|split].
    + intros c Hc. apply in_app_or in Hc as [Hc|[<-|[]]]; [now apply Hcomp | eauto].
    + intros i j ci cj x y Hi Hj Hx Hy Hxy.
      apply nth_error_snoc in Hi as [Hi|[-> ->]];
        apply nth_error_snoc in Hj as [Hj|[-> ->]].
      * exact (Hsep i j ci cj x y Hi Hj Hx Hy Hxy).
      * elim (Hfresh ci x y (nth_error_In _ _ Hi) Hx Hy Hxy).
      * elim (Hfresh cj y x (nth_error_In _ _ Hj) Hy Hx).
        now apply mutually_reachable_sym.
      * reflexivity.
    + rewrite concat_app. apply in_or_app. right. simpl. now rewrite app_nil_r.
    + intros x Hx. rewrite concat_app. apply in_or_app. now left.
Qed.

Lemma components_loop_inv (g : DiGraph) (todo : list str) :
  graph_ok g -> incl todo (nodes g) ->
  forall found, listing_inv g found ->
    listing_inv g (fold_left (components_step g) todo found)
    /\ (forall x, In x todo \/ In x (concat found) ->
                  In x (concat (fold_left (components_step g) todo found))).
Proof.
  intros Hok. induction todo as [|u todo IH]; intros Hincl found Hinv.
  - simpl. split; [exact Hinv|]. intros x [[]|Hx]. exact Hx.
  - cbn [fold_left].
    destruct (components_step_inv g found u Hok) as (Hinv' & Hu & Hkeep);
      [apply Hincl; now left | exact Hinv |].
    destruct (IH (fun x Hx => Hincl x (or_intror Hx)) _ Hinv') as [Hend Hall].
    split; [exact Hend|].
    intros x [[<-|Hx]|Hx]; apply Hall; auto.
Qed.

(** The reference enumeration meets the contract. *)
Lemma components_listing (g : DiGraph) :
  graph_ok g -> scc_listing g (components g).
Proof.
  intros Hok. unfold components.
  destruct (components_loop_inv g (nodes g) Hok (incl_refl _) [])
    as [[Hcomp Hsep] Hall].
  { split; [intros c [] | intros i j ci cj u v Hi; destruct i; discriminate]. }
  constructor.
  - intros v. split.
    + intros Hv. apply in_concat. apply Hall. now left.
    + intros (c & Hc & Hv). destruct (Hcomp c Hc) as (r & _ & ->).
      now apply (in_component g r v Hok) in Hv as [Hv _].
  - intros c Hc. destruct (Hcomp c Hc) as (r & Hr & ->). split.
    + assert (Hin : In r (component g r)).
      { apply in_component; [exact Hok|]. split; [exact Hr | apply mutually_reachable_refl]. }
      intros Hnil. rewrite Hnil in Hin. destruct Hin.
    + apply NoDup_filter. apply Hok.
  - intros i j ci cj u v Hi Hj Hu Hv. split.
    + intros ->. rewrite Hi in Hj. inversion Hj; subst cj.
      destruct (Hcomp ci (nth_error_In _ _ Hi)) as (r & _ & ->).
      apply (in_component g r u Hok) in Hu as [_ Hu].
      apply (in_component g r v Hok) in Hv as [_ Hv].
      eapply mutually_reachable_trans; [apply mutually_reachable_sym; exact Hu | exact Hv].
    + exact (Hsep i j ci cj u v Hi Hj Hu Hv).
Qed.

Lemma add_node_ok (n : str) (g : DiGraph) : graph_ok g -> graph_ok (add_node n g).
Proof.
  intros [Hnd Hends]. split.
  - unfold add_node. destruct (mem n (nodes g)) eqn:Hm; [exact Hnd|]. simpl.
    apply mem_not_In in Hm.
    apply NoDup_app; [exact Hnd | repeat constructor; auto |].
    intros a Ha [<-|[]]. contradiction.
  - intros u v Huv. rewrite add_node_edges in Huv. rewrite !add_node_nodes.
    destruct (Hends u v Huv). auto.
Qed.

Lemma add_edge_ok (u v : str) (g : DiGraph) : graph_ok g -> graph_ok (add_edge u v g).
Proof.
  intros Hok.
  assert (Hok2 : graph_ok (add_node v (add_node u g))) by now do 2 apply add_node_ok.
  split.
  - unfold add_edge.
    destruct (existsb (edge_eqb (u, v)) (edges (add_node v (add_node u g))));
      apply Hok2.
  - intros a b Hab. apply add_edge_edges in Hab. rewrite !add_edge_nodes.
    destruct Hab as [Heq|Hab].
    + inversion Heq; subst. auto.
    + destruct Hok as [_ Hends]. destruct (Hends a b Hab). auto.
Qed.

Lemma visit_ok (n : node) :
  forall b, graph_ok (graph b) -> graph_ok (graph (visit n b)).
Proof.
  induction n as [name children IH | func args IHf IHa | id | children IH]
    using node_induction; intros b Hb; cbn [visit].
  - rewrite Forall_forall in IH.
    apply (fold_visit_preserves (fun b => graph_ok (graph b))); [exact IH|].
    cbn [graph]. now apply add_node_ok.
  - rewrite Forall_forall in IHa.
    apply (fold_visit_preserves (fun b => graph_ok (graph b))); [exact IHa|].
    apply IHf. destruct (is_Name func), (current_truthy b); try exact Hb.
    cbn [graph]. now apply add_edge_ok.
  - exact Hb.
  - rewrite Forall_forall in IH.
    now apply (fold_visit_preserves (fun b => graph_ok (graph b))).
Qed.

Lemma build_graph_ok (body : list stmt) : graph_ok (build_graph body).
Proof.
  unfold build_graph, visit_module. rewrite visit_module_eq.
  apply (fold_visit_preserves (fun b => graph_ok (graph b))).
  - intros n _. apply visit_ok.
  - split; [constructor | intros u v []].
Qed.

(** Whatever the module, the graph the builder makes of it has a listing of
    components that meets the contract. *)
Lemma build_graph_has_listing (body : list stmt) :
  scc_listing (build_graph body) (components (build_graph body)).
Proof. apply components_listing, build_graph_ok. Qed.

(** ** The cluster loop and the assembler *)

Lemma cluster_step_eq (source : str) (fn : list (str * stmt))
    (chunks : list str) (cluster : list str) :
  cluster_step source fn chunks cluster
  = chunks ++ cluster_chunks source fn cluster.
Proof.
  unfold cluster_step, cluster_chunks.
  destruct (100 <? len (splitlines (full_code source fn cluster))); [|reflexivity].
  revert chunks. induction cluster as [|f cluster IH]; intros chunks; simpl.
  - now rewrite app_nil_r.
  - rewrite IH. destruct (dict_get f fn); [now rewrite app_assoc | reflexivity].
Qed.

Lemma cluster_loop (source : str) (fn : list (str * stmt)) (clusters : list (list str)) :
  forall chunks,
    fold_left (cluster_step source fn) clusters chunks
    = chunks ++ flat_map (cluster_chunks source fn) clusters.
Proof.
  induction clusters as [|c clusters IH]; intros chunks; simpl.
  - now rewrite app_nil_r.
  - rewrite IH, cluster_step_eq. now rewrite app_assoc.
Qed.

Lemma full_code_from (source : str) (fn : list (str * stmt)) (cluster : list str) :
  forall acc,
    fold_left
      (fun acc func_name =>
         match dict_get func_name fn with
         | Some nd => acc ++ (get_source_segment source nd ++ [LF; LF])
         | None => acc
         end)
      cluster acc
    = acc ++ flat_map
               (fun func_name =>
                  match dict_get func_name fn with
                  | Some nd => get_source_segment source nd ++ [LF; LF]
                  | None => []
                  end)
               cluster.
Proof.
  induction cluster as [|f cluster IH]; intros acc; cbn [fold_left flat_map].
  - now rewrite app_nil_r.
  - rewrite IH. destruct (dict_get f fn); [now rewrite <- app_assoc | reflexivity].
Qed.

Lemma full_code_eq (source : str) (fn : list (str * stmt)) (cluster : list str) :
  full_code source fn cluster
  = flat_map
      (fun func_name =>
         match dict_get func_name fn with
         | Some nd => get_source_segment source nd ++ [LF; LF]
         | None => []
         end)
      cluster.
Proof. unfold full_code. now rewrite full_code_from. Qed.

Lemma assemble_eq (source : str) (body : list stmt) (clusters : list (list str)) :
  assemble source body clusters
  = let g := strip (global_code source body) in
    let chunks := (if truthy g then [g] else [])
                  ++ flat_map (cluster_chunks source (func_nodes body)) clusters in
    if truthy chunks then chunks else [strip source].
Proof.
  unfold assemble. rewrite cluster_loop. simpl.
  now destruct (truthy (strip (global_code source body))).
Qed.

(** What a cluster without any top-level function contributes: the empty
    string. *)
Lemma phantom_cluster_chunks (source : str) (body : list stmt) (cluster : list str) :
  (forall f, In f cluster -> ~ In f (top_level_functions body)) ->
  cluster_chunks source (func_nodes body) cluster = [[]].
Proof.
  intros Hph.
  assert (Hfull : full_code source (func_nodes body) cluster = []).
  { rewrite full_code_eq. induction cluster as [|f cluster IH]; [reflexivity|].
    simpl. replace (dict_get f (func_nodes body)) with (@None stmt).
    - apply IH. intros g Hg. apply Hph. now right.
    - symmetry. apply func_nodes_none. apply Hph. now left. }
  unfold cluster_chunks. rewrite Hfull. reflexivity.
Qed.

Lemma in_assemble_cluster_chunk (source : str) (body : list stmt)
    (clusters : list (list str)) (cluster : list str) (c : str) :
  In cluster clusters ->
  In c (cluster_chunks source (func_nodes body) cluster) ->
  In c (assemble source body clusters).
Proof.
  intros Hcl Hc. rewrite assemble_eq. cbv zeta.
  set (chunks := (if truthy (strip (global_code source body))
                  then [strip (global_code source body)] else [])
                 ++ flat_map (cluster_chunks source (func_nodes body)) clusters).
  assert (Hin : In c chunks).
  { apply in_or_app. right. apply in_flat_map. eauto. }
  destruct chunks; [destruct Hin | exact Hin].
Qed.

Lemma in_chunk_code_small (source : str) (body : list stmt)
    (clusters : list (list str)) (c : str) :
  In c (assemble source body clusters) ->
  len c <= MAX_TOKENS * APPROX_CHARS_PER_TOKEN ->
  In c (chunk_code source body clusters).
Proof.
  intros Hin Hsmall. rewrite chunk_code_flat_map. apply in_flat_map.
  exists c. split; [exact Hin|]. rewrite final_pieces_small by exact Hsmall. now left.
Qed.

Lemma dropwhile_all {A : Type} (p : A -> bool) (l : list A) :
  Forall (fun x => p x = true) l -> dropwhile p l = [].
Proof.
  induction 1 as [|x l Hx _ IH]; simpl; [reflexivity | now rewrite Hx].
Qed.

(** Stripping a blank text leaves nothing. *)
Lemma strip_blank (s : str) :
  Forall (fun c => is_space c = true) s -> strip s = [].
Proof.
  intros H. unfold strip, lstrip. now rewrite dropwhile_all.
Qed.

(** C7: [chunk_code] returns at least one chunk, for every input; and on an
    empty or whitespace-only source, whose parse has no statement, it returns
    exactly one chunk, the trimmed source, which is the empty string. *)
Theorem chunk_code_returns_a_chunk (source : str) (body : list stmt)
    (clusters : list (list str)) :
  chunk_code source body clusters <> []
  /\ (Forall (fun c => is_space c = true) source -> body = [] ->
      scc_listing (build_graph body) clusters ->
      chunk_code source body clusters = [strip source] /\ strip source = []).
Proof.
  split.
  - rewrite chunk_code_flat_map.
    pose proof (assemble_nonempty source body clusters) as Hne.
    destruct (assemble source body clusters) as [|c l]; [congruence|].
    simpl. pose proof (final_pieces_nonempty c) as Hc.
    destruct (final_pieces c); [congruence | discriminate].
  - intros Hblank -> Hscc. apply scc_listing_empty in Hscc. subst clusters.
    rewrite (strip_blank source Hblank). split; [|reflexivity].
    unfold chunk_code, assemble. simpl. rewrite (strip_blank source Hblank).
    reflexivity.
Qed.

Lemma chunk_code_returns_a_chunk_witness :
  chunk_code print_source print_body print_clusters <> []
  /\ chunk_code (py "  " ++ [LF]) [] [] = [strip (py "  " ++ [LF])]
  /\ strip (py "  " ++ [LF]) = [].
Proof.
  split.
  - apply (proj1 (chunk_code_returns_a_chunk print_source print_body print_clusters)).
  - apply (proj2 (chunk_code_returns_a_chunk (py "  " ++ [LF]) [] [])).
    + vm_compute. repeat constructor.
    + reflexivity.
    + check_listing.
Defined.

(** ** The clusters *)

(** C2, amended: the clusters are pairwise disjoint, every top-level function
    name appears in exactly one cluster, and the union of the clusters is the
    node set of the call graph, which holds every top-level function name
    (and, besides, whatever name the builder added: nested definitions and
    called names that no top-level function bears). *)
Theorem clusters_partition_graph_nodes (body : list stmt) (clusters : list (list str)) :
  scc_listing (build_graph body) clusters ->
  (forall f, In f (top_level_functions body) ->
     exists i c, nth_error clusters i = Some c /\ In f c
       /\ forall j c', nth_error clusters j = Some c' -> In f c' -> j = i)
  /\ (forall i j ci cj v,
        nth_error clusters i = Some ci -> nth_error clusters j = Some cj ->
        In v ci -> In v cj -> i = j)
  /\ (forall v, (exists c, In c clusters /\ In v c)
                <-> In v (nodes (build_graph body)))
  /\ incl (top_level_functions body) (nodes (build_graph body)).
Proof.
  intros Hscc. split; [|split; [|split]].
  - intros f Hf. apply top_level_functions_are_nodes in Hf.
    apply (scc_cover _ _ Hscc) in Hf as (c & Hc & Hfc).
    apply In_nth_error in Hc as (i & Hi). exists i, c. repeat split; auto.
    intros j c' Hj Hfc'. exact (scc_disjoint _ _ Hscc j i c' c f Hj Hi Hfc' Hfc).
  - exact (scc_disjoint _ _ Hscc).
  - intros v. symmetry. apply (scc_cover _ _ Hscc).
  - intros f. apply top_level_functions_are_nodes.
Qed.

Lemma clusters_partition_graph_nodes_witness :
  scc_listing (build_graph print_body) print_clusters
  /\ incl (top_level_functions print_body) (nodes (build_graph print_body)).
Proof.
  assert (H : scc_listing (build_graph print_body) print_clusters)
    by (check_listing).
  split; [exact H|].
  exact (proj2 (proj2 (proj2 (clusters_partition_graph_nodes print_body print_clusters H)))).
Defined.

(** C2 as stated fails on [def f(): print(1)]: whatever the listing of the
    components, it has the cluster of [print], which is no top-level
    function, so that the union of the clusters is not the set of top-level
    function names. *)
Lemma clusters_union_counterexample :
  top_level_functions print_body = [py "f"]
  /\ scc_listing (build_graph print_body) print_clusters
  /\ forall cs,
       scc_listing (build_graph print_body) cs ->
       ~ (forall v, (exists c, In c cs /\ In v c)
                    <-> In v (top_level_functions print_body)).
Proof.
  split; [reflexivity|].
  split; [check_listing|].
  intros cs Hscc H.
  assert (Hnode : In (py "print") (nodes (build_graph print_body)))
    by (vm_compute; auto).
  apply (scc_cover _ _ Hscc), H in Hnode.
  vm_compute in Hnode. destruct Hnode as [Hin|[]]. discriminate.
Qed.

(** C10: when a top-level function contains a call to a simple name that no
    top-level function bears, and that name is mutually reachable with no
    other node, its cluster is the singleton of the name and [chunk_code]
    returns an empty string among its chunks. *)
Theorem phantom_cluster_yields_empty_chunk (source : str) (body : list stmt)
    (clusters : list (list str)) (st : stmt) (p : str) :
  scc_listing (build_graph body) clusters ->
  In st body -> function_name (ast st) <> None -> named (ast st) = true ->
  has_call p (ast st) = true ->
  ~ In p (top_level_functions body) ->
  (forall v, mutually_reachable (build_graph body) p v -> v = p) ->
  In [p] clusters
  /\ cluster_chunks source (func_nodes body) [p] = [[]]
  /\ In [] (chunk_code source body clusters).
Proof.
  intros Hscc Hst Hf Hnamed Hcall Hphantom Halone.
  assert (Hnode : In p (nodes (build_graph body)))
    by (eapply called_names_are_nodes; eauto).
  assert (Hcl : In [p] clusters) by (eapply scc_singleton; eauto).
  assert (Hch : cluster_chunks source (func_nodes body) [p] = [[]]).
  { apply phantom_cluster_chunks. intros f [<-|[]]. exact Hphantom. }
  repeat split; auto.
  apply in_chunk_code_small.
  - apply (in_assemble_cluster_chunk source body clusters [p]); [exact Hcl|].
    rewrite Hch. now left.
  - vm_compute. discriminate.
Qed.

(** A check that a node is mutually reachable with no other. *)
Lemma alone_check (g : DiGraph) (p : str) :
  closedb g (reach_set g p) = true ->
  forallb
    (fun v => str_eqb v p
              || (closedb g (reach_set g v) && negb (mem p (reach_set g v))))
    (reach_set g p) = true ->
  forall v, mutually_reachable g p v -> v = p.
Proof.
  intros Hcl Hall v [Hpv Hvp].
  apply (reach_set_spec g p v Hcl), mem_In in Hpv.
  rewrite forallb_forall in Hall. specialize (Hall v Hpv).
  apply orb_prop in Hall as [Heq|Hno]; [now apply str_eqb_eq|].
  apply andb_prop in Hno as [Hclv Hno].
  apply (reach_set_spec g v p Hclv) in Hvp. rewrite Hvp in Hno. discriminate.
Qed.

Lemma phantom_cluster_yields_empty_chunk_witness :
  In [py "print"] print_clusters
  /\ cluster_chunks print_source (func_nodes print_body) [py "print"] = [[]]
  /\ In [] (chunk_code print_source print_body print_clusters).
Proof.
  apply (phantom_cluster_yields_empty_chunk print_source print_body print_clusters
           (nth 0 print_body (Stmt (Name []) [])) (py "print")).
  - check_listing.
  - left. reflexivity.
  - discriminate.
  - reflexivity.
  - reflexivity.
  - vm_compute. intros [H|[]]. discriminate.
  - apply alone_check; vm_compute; reflexivity.
Defined.

(** ** Line counts and trimming *)

(** Lines on either side of a blank-line separator. *)
Lemma splitlines_from_separator (t : str) (n : nat) :
  forall s cur, (length s <= n)%nat ->
    match s with
    | [] => cur <> []
    | _ :: _ => is_linebreak (last s 0%N) = false
    end ->
    splitlines_from cur (s ++ LF :: LF :: t)
    = splitlines_from cur s ++ [] :: splitlines_from [] t.
Proof.
  induction n as [|n IH]; intros s cur Hn Hs.
  - destruct s; [|simpl in Hn; lia].
    destruct cur as [|a cur]; [congruence|]. simpl. now destruct t.
  - destruct s as [|c rest].
    + destruct cur as [|a cur]; [congruence|]. simpl. now destruct t.
    + simpl in Hn. change ((c :: rest) ++ LF :: LF :: t) with (c :: (rest ++ LF :: LF :: t)).
      cbn [splitlines_from]. destruct (is_linebreak c) eqn:Hc.
      * destruct rest as [|d rest']; [simpl in Hs; congruence|].
        change ((d :: rest') ++ LF :: LF :: t) with (d :: (rest' ++ LF :: LF :: t)).
        cbv iota. destruct ((c =? CR)%N && (d =? LF)%N) eqn:Hcrlf.
        -- destruct rest' as [|e rest''].
           { apply andb_prop in Hcrlf as [_ Hd]. apply N.eqb_eq in Hd. subst d.
             simpl in Hs. discriminate. }
           cbn [app]. f_equal.
           apply (IH (e :: rest'') []); [simpl in Hn |- *; lia | exact Hs].
        -- change (d :: (rest' ++ LF :: LF :: t)) with ((d :: rest') ++ LF :: LF :: t).
           cbn [app]. f_equal.
           apply (IH (d :: rest') []); [simpl in Hn |- *; lia | exact Hs].
      * apply IH; [lia|].
        destruct rest as [|d rest']; [now destruct cur | exact Hs].
Qed.

Lemma splitlines_separator (s t : str) :
  ends_clean s ->
  splitlines (s ++ LF :: LF :: t) = splitlines s ++ [] :: splitlines t.
Proof.
  intros [Hne Hlast]. unfold splitlines.
  apply (splitlines_from_separator t (length s) s [] (Nat.le_refl _)).
  destruct s; [congruence | exact Hlast].
Qed.

(** The lines of the text of a cluster: the lines of each span, and one blank
    line after each. *)
Lemma splitlines_spans (spans : list str) :
  Forall ends_clean spans ->
  splitlines (flat_map (fun s => s ++ [LF; LF]) spans)
  = flat_map (fun s => splitlines s ++ [[]]) spans.
Proof.
  induction 1 as [|s spans Hs _ IH]; [reflexivity|].
  cbn [flat_map]. rewrite <- app_assoc. cbn [app].
  rewrite splitlines_separator by exact Hs. rewrite IH.
  rewrite <- app_assoc. reflexivity.
Qed.

Lemma full_code_spans (source : str) (fn : list (str * stmt)) (cluster : list str) :
  full_code source fn cluster
  = flat_map (fun s => s ++ [LF; LF]) (known_spans source fn cluster).
Proof.
  rewrite full_code_eq. unfold known_spans.
  induction cluster as [|f cluster IH]; [reflexivity|].
  cbn [flat_map]. rewrite IH. destruct (dict_get f fn); [|reflexivity].
  rewrite flat_map_app. cbn [flat_map]. now rewrite app_nil_r.
Qed.

Lemma dropwhile_app_skip {A : Type} (p : A -> bool) (l1 l2 : list A) :
  Forall (fun x => p x = true) l1 -> dropwhile p (l1 ++ l2) = dropwhile p l2.
Proof.
  induction 1 as [|x l1 Hx _ IH]; simpl; [reflexivity | now rewrite Hx].
Qed.

Lemma dropwhile_app_keep {A : Type} (p : A -> bool) (l1 l2 : list A) :
  dropwhile p l1 <> [] -> dropwhile p (l1 ++ l2) = dropwhile p l1 ++ l2.
Proof.
  induction l1 as [|x l1 IH]; simpl; intros H; [congruence|].
  destruct (p x); [now apply IH | reflexivity].
Qed.

Lemma rstrip_app_blank (s w : str) :
  Forall (fun c => is_space c = true) w -> rstrip (s ++ w) = rstrip s.
Proof.
  intros Hw. unfold rstrip. rewrite rev_app_distr.
  rewrite dropwhile_app_skip; [reflexivity | now apply Forall_rev].
Qed.

(** Trailing blanks do not change the trimmed text. *)
Lemma strip_app_blank (s w : str) :
  Forall (fun c => is_space c = true) w -> strip (s ++ w) = strip s.
Proof.
  intros Hw. unfold strip, lstrip.
  destruct (dropwhile is_space s) eqn:Hs.
  - assert (Hall : dropwhile is_space (s ++ w) = []).
    { clear -Hs Hw. induction s as [|x s IH]; simpl in *.
      - now apply dropwhile_all.
      - destruct (is_space x); [now apply IH | discriminate]. }
    now rewrite Hall.
  - rewrite dropwhile_app_keep by (rewrite Hs; discriminate).
    rewrite Hs. now apply rstrip_app_blank.
Qed.

(** ** The cluster-merge threshold *)

(** C5, amended: the loop over the clusters appends, for each cluster, either
    the pieces the structural splitter makes of the span of each member that
    is a top-level function, when the text of the cluster has more than 100
    lines, or the one merged, trimmed chunk, when it has at most 100; the
    text that is counted is the untrimmed one, in which every span is
    followed by a blank line, so that the count is the number of lines of the
    spans plus one for each span. *)
Theorem cluster_chunks_by_line_count (source : str) (body : list stmt)
    (clusters : list (list str)) :
  let fn := func_nodes body in
  let count cluster := len (splitlines (full_code source fn cluster)) in
  (exists pieces,
      fold_left (cluster_step source fn) clusters [] = concat pieces
      /\ Forall2
           (fun cluster ps =>
              (100 < count cluster ->
               ps = flat_map
                      (fun f => match dict_get f fn with
                                | Some nd => split_large_function nd source 50
                                | None => []
                                end) cluster)
              /\ (count cluster <= 100 ->
                  ps = [strip (full_code source fn cluster)]))
           clusters pieces)
  /\ (forall cluster,
        Forall ends_clean (known_spans source fn cluster) ->
        count cluster
        = fold_right (fun s acc => len (splitlines s) + 1 + acc) 0
            (known_spans source fn cluster)).
Proof.
  intros fn count. split.
  - exists (map (cluster_chunks source fn) clusters). split.
    + rewrite cluster_loop. simpl. apply flat_map_concat_map.
    + induction clusters as [|c clusters IH]; constructor; [|exact IH].
      unfold cluster_chunks. fold (count c).
      destruct (Z.ltb_spec 100 (count c)); split; intros; auto; lia.
  - intros cluster Hclean. unfold count.
    rewrite full_code_spans, splitlines_spans by exact Hclean.
    induction (known_spans source fn cluster) as [|s spans IH]; [reflexivity|].
    inversion Hclean; subst. cbn [flat_map fold_right].
    rewrite !len_app, IH by assumption. change (len [[]]) with 1. lia.
Qed.

Lemma cluster_chunks_by_line_count_witness :
  len (splitlines
         (full_code [] (func_nodes [hundred_function]) [py "f"]))
  = fold_right (fun s acc => len (splitlines s) + 1 + acc) 0
      (known_spans [] (func_nodes [hundred_function]) [py "f"]).
Proof.
  apply (proj2 (cluster_chunks_by_line_count [] [hundred_function] [[py "f"]])).
  constructor; [|constructor].
  split; [discriminate | vm_compute; reflexivity].
Defined.

(** C5 as stated fails on a cluster of one function of exactly 100 lines: its
    rendered text has 100 lines, yet the merged chunk is not emitted; the
    function is split in two pieces.  The graph has one listing only. *)
Lemma hundred_line_cluster_counterexample :
  let fn := func_nodes [hundred_function] in
  let src := get_source_segment [] hundred_function in
  (forall cs, scc_listing (build_graph [hundred_function]) cs <-> cs = [[py "f"]])
  /\ len (splitlines (get_source_segment src hundred_function)) = 100
  /\ len (splitlines (strip (full_code src fn [py "f"]))) = 100
  /\ length (fold_left (cluster_step src fn) [[py "f"]] []) = 2%nat
  /\ fold_left (cluster_step src fn) [[py "f"]] []
     <> [strip (full_code src fn [py "f"])]
  /\ length (chunk_code src [hundred_function] [[py "f"]]) = 2%nat.
Proof.
  intros fn src.
  split.
  { intros cs. split.
    - intros H. apply (scc_listing_single _ _ H). reflexivity.
    - intros ->. check_listing. }
  split; [vm_compute; reflexivity|].
  split; [vm_compute; reflexivity|].
  assert (H2 : length (fold_left (cluster_step src fn) [[py "f"]] []) = 2%nat)
    by (vm_compute; reflexivity).
  split; [exact H2|]. split; [|vm_compute; reflexivity].
  intros Heq. rewrite Heq in H2. discriminate.
Qed.

(** ** Sources within every budget *)

Lemma flat_map_final_small (l : list str) :
  Forall (fun c => len c <= MAX_TOKENS * APPROX_CHARS_PER_TOKEN) l ->
  flat_map final_pieces l = l.
Proof.
  induction 1 as [|c l Hc _ IH]; [reflexivity|].
  cbn [flat_map]. rewrite final_pieces_small by exact Hc. now rewrite IH.
Qed.

Lemma flat_map_cluster_chunks_small (source : str) (fn : list (str * stmt))
    (clusters : list (list str)) :
  Forall (fun cluster => len (splitlines (full_code source fn cluster)) <= 100)
    clusters ->
  flat_map (cluster_chunks source fn) clusters
  = map (fun cluster => strip (full_code source fn cluster)) clusters.
Proof.
  induction 1 as [|c l Hc _ IH]; [reflexivity|].
  cbn [flat_map map]. rewrite IH. unfold cluster_chunks at 1.
  destruct (Z.ltb_spec 100 (len (splitlines (full_code source fn c))));
    [lia | reflexivity].
Qed.

(** C6, amended: when every cluster is within the merge threshold and every
    chunk within the character budget, [chunk_code] returns one trimmed chunk
    per cluster, after the trimmed module-level chunk if there is one, or the
    trimmed source alone when there is neither; so it returns exactly one
    chunk, the trimmed source, when the module has no statement, and when the
    module is one function whose name is the only node of the call graph and
    whose span is the trimmed source. *)
Theorem chunks_of_small_source (source : str) (body : list stmt)
    (clusters : list (list str)) :
  scc_listing (build_graph body) clusters ->
  Forall (fun cluster =>
            len (splitlines (full_code source (func_nodes body) cluster)) <= 100)
    clusters ->
  Forall (fun c => len c <= MAX_TOKENS * APPROX_CHARS_PER_TOKEN)
    (assemble source body clusters) ->
  let g := strip (global_code source body) in
  let chunks :=
    (if truthy g then [g] else [])
    ++ map (fun cluster => strip (full_code source (func_nodes body) cluster))
         clusters in
  chunk_code source body clusters = (if truthy chunks then chunks else [strip source])
  /\ (body = [] -> chunk_code source body clusters = [strip source])
  /\ (forall st f,
        body = [st] -> function_name (ast st) = Some f ->
        nodes (build_graph body) = [f] ->
        strip source = strip (get_source_segment source st) ->
        chunk_code source body clusters = [strip source]).
Proof.
  intros Hscc Hlines Hchars g chunks.
  assert (Hall : chunk_code source body clusters
                 = (if truthy chunks then chunks else [strip source])).
  { rewrite chunk_code_flat_map, flat_map_final_small by exact Hchars.
    rewrite assemble_eq. cbv zeta.
    now rewrite flat_map_cluster_chunks_small by exact Hlines. }
  split; [exact Hall|]. split.
  - intros ->. rewrite Hall. subst chunks g.
    apply scc_listing_empty in Hscc. subst clusters. reflexivity.
  - intros st f -> Hf Hnodes Hsrc. rewrite Hall. subst chunks g.
    rewrite (scc_listing_single _ _ Hscc f Hnodes).
    assert (Hg : global_code source [st] = []).
    { unfold global_code. cbn [fold_left]. now rewrite Hf. }
    assert (Hfull : full_code source (func_nodes [st]) [f]
                    = get_source_segment source st ++ [LF; LF]).
    { unfold full_code, func_nodes. cbn [fold_left]. rewrite Hf.
      cbn [dict_set dict_get]. now rewrite str_eqb_refl. }
    cbn [map]. rewrite Hg, Hfull.
    rewrite strip_app_blank by (repeat constructor).
    rewrite <- Hsrc. reflexivity.
Qed.

Lemma chunks_of_small_source_witness :
  chunk_code (get_source_segment [] small_function) [small_function] [[py "f"]]
  = [strip (get_source_segment [] small_function)].
Proof.
  refine (proj2 (proj2 (chunks_of_small_source
                          (get_source_segment [] small_function)
                          [small_function] [[py "f"]] _ _ _))
            small_function (py "f") eq_refl eq_refl _ eq_refl).
  - check_listing.
  - constructor; [vm_compute; discriminate | constructor].
  - vm_compute. constructor; [discriminate | constructor].
  - vm_compute. reflexivity.
Defined.

Lemma no_edges_reachable (g : DiGraph) (u v : str) :
  edges g = [] -> reachable g u v -> u = v.
Proof.
  intros Hno Huv. induction Huv as [x y Hxy | | x y z _ IH1 _ IH2].
  - unfold edge in Hxy. rewrite Hno in Hxy. destruct Hxy.
  - reflexivity.
  - congruence.
Qed.

(** The two listings of the components of two independent functions. *)
Lemma two_body_listings (cs : list (list str)) :
  scc_listing (build_graph two_body) cs ->
  cs = two_clusters \/ cs = rev two_clusters.
Proof.
  intros H.
  assert (Hall : forall c, In c cs -> c = [py "x"] \/ c = [py "y"]).
  { intros c Hc. destruct (scc_sets _ _ H c Hc) as [Hne Hnd].
    destruct c as [|a c]; [congruence|].
    assert (Hsame : forall v, In v (a :: c) -> v = a).
    { intros v Hv. apply In_nth_error in Hc as (i & Hi).
      destruct (proj1 (scc_classes _ _ H i i _ _ a v Hi Hi (or_introl eq_refl) Hv)
                  eq_refl) as [Hav _].
      symmetry. now apply (no_edges_reachable (build_graph two_body)). }
    rewrite (all_same_nodup (a :: c) a Hne Hnd Hsame).
    assert (Ha : In a (nodes (build_graph two_body))).
    { apply (scc_cover _ _ H). exists (a :: c). split; [exact Hc | now left]. }
    destruct Ha as [<-|[<-|[]]]; auto. }
  assert (Hx : exists c, In c cs /\ In (py "x") c)
    by (apply (scc_cover _ _ H); vm_compute; auto).
  assert (Hy : exists c, In c cs /\ In (py "y") c)
    by (apply (scc_cover _ _ H); vm_compute; auto).
  assert (Hdis : forall i j c v, nth_error cs i = Some c -> nth_error cs j = Some c ->
                   In v c -> i = j)
    by (intros i j c v Hi Hj Hv; exact (scc_disjoint _ _ H i j c c v Hi Hj Hv Hv)).
  destruct Hx as (cx & Hcx & Hxin). destruct Hy as (cy & Hcy & Hyin).
  assert (Hcx' : cx = [py "x"]).
  { destruct (Hall cx Hcx) as [->| ->]; [reflexivity|].
    destruct Hxin as [Habs|[]]. discriminate. }
  assert (Hcy' : cy = [py "y"]).
  { destruct (Hall cy Hcy) as [->| ->]; [|reflexivity].
    destruct Hyin as [Habs|[]]. discriminate. }
  subst cx cy.
  destruct cs as [|a [|b [|c cs]]].
  - destruct Hcx.
  - destruct Hcx as [->|[]]. destruct Hcy as [Habs|[]]. discriminate.
  - destruct (Hall a (or_introl eq_refl)) as [-> | ->];
      destruct (Hall b (or_intror (or_introl eq_refl))) as [-> | ->].
    + assert (Habs : 0%nat = 1%nat) by (eapply Hdis; try reflexivity; now left).
      discriminate.
    + now left.
    + now right.
    + assert (Habs : 0%nat = 1%nat) by (eapply Hdis; try reflexivity; now left).
      discriminate.
  - exfalso.
    destruct (Hall a (or_introl eq_refl)) as [-> | ->];
      destruct (Hall b (or_intror (or_introl eq_refl))) as [-> | ->];
      destruct (Hall c (or_intror (or_intror (or_introl eq_refl)))) as [-> | ->];
      first
        [ assert (Habs : 0%nat = 1%nat)
            by (eapply Hdis; try reflexivity; now left); discriminate
        | assert (Habs : 0%nat = 2%nat)
            by (eapply Hdis; try reflexivity; now left); discriminate
        | assert (Habs : 1%nat = 2%nat)
            by (eapply Hdis; try reflexivity; now left); discriminate ].
Qed.

(** C6 as stated fails on two independent functions: the source is within
    every budget, and [chunk_code] returns two chunks, in whichever order the
    two components are listed. *)
Lemma two_functions_counterexample :
  scc_listing (build_graph two_body) two_clusters
  /\ len two_source <= MAX_TOKENS * APPROX_CHARS_PER_TOKEN
  /\ Forall (fun st => len (splitlines (get_source_segment two_source st)) <= 50)
       two_body
  /\ Forall (fun cluster =>
               len (splitlines (full_code two_source (func_nodes two_body) cluster))
               <= 100) two_clusters
  /\ chunk_code two_source two_body two_clusters
     = [py "def x(): pass"; py "def y(): pass"]
  /\ forall cs,
       scc_listing (build_graph two_body) cs ->
       length (chunk_code two_source two_body cs) = 2%nat
       /\ chunk_code two_source two_body cs <> [strip two_source].
Proof.
  split; [check_listing|].
  split; [vm_compute; discriminate|].
  split; [repeat constructor; vm_compute; discriminate|].
  split; [repeat constructor; vm_compute; discriminate|].
  split; [vm_compute; reflexivity|].
  intros cs Hcs. destruct (two_body_listings cs Hcs) as [-> | ->];
    (split; [vm_compute; reflexivity | vm_compute; discriminate]).
Qed.


(** * Further properties of the code *)

(** ** The builder *)

Lemma current_truthy_some (b : builder) (f : str) :
  current_truthy b = Some f -> current_function b = Some f.
Proof.
  unfold current_truthy. destruct (current_function b) as [g|]; [|discriminate].
  destruct (truthy g); congruence.
Qed.

Lemma edge_eqb_eq (e f : str * str) : edge_eqb e f = true <-> e = f.
Proof.
  destruct e as [a b], f as [c d]. unfold edge_eqb. simpl.
  rewrite andb_true_iff, !str_eqb_eq. split; [intros [-> ->] | intros H; inversion H]; auto.
Qed.

(** What holds of the empty graph and is kept by [add_node] and [add_edge]
    holds of every graph the visitor builds. *)
Lemma visit_graph_preserves (P : DiGraph -> Prop) :
  (forall n g, P g -> P (add_node n g)) ->
  (forall u v g, P g -> P (add_edge u v g)) ->
  forall n b, P (graph b) -> P (graph (visit n b)).
Proof.
  intros Hnode Hedge.
  induction n as [name children IH | func args IHf IHa | id | children IH]
    using node_induction; intros b Hb; cbn [visit].
  - rewrite Forall_forall in IH.
    apply (fold_visit_preserves (fun b => P (graph b))); [exact IH|].
    cbn [graph]. now apply Hnode.
  - rewrite Forall_forall in IHa.
    apply (fold_visit_preserves (fun b => P (graph b))); [exact IHa|].
    apply IHf. destruct (is_Name func), (current_truthy b); try exact Hb.
    cbn [graph]. now apply Hedge.
  - exact Hb.
  - rewrite Forall_forall in IH.
    now apply (fold_visit_preserves (fun b => P (graph b))).
Qed.

Lemma build_graph_preserves (P : DiGraph -> Prop) (body : list stmt) :
  P empty_graph ->
  (forall n g, P g -> P (add_node n g)) ->
  (forall u v g, P g -> P (add_edge u v g)) ->
  P (build_graph body).
Proof.
  intros H0 Hnode Hedge. unfold build_graph, visit_module. rewrite visit_module_eq.
  apply (fold_visit_preserves (fun b => P (graph b))); [|exact H0].
  intros n _. now apply visit_graph_preserves.
Qed.

Lemma add_edge_nodup_edges (u v : str) (g : DiGraph) :
  NoDup (edges g) -> NoDup (edges (add_edge u v g)).
Proof.
  intros Hnd. unfold add_edge.
  destruct (existsb (edge_eqb (u, v)) (edges (add_node v (add_node u g)))) eqn:Hex;
    cbn [edges]; rewrite ?add_node_edges in *; [exact Hnd|].
  apply NoDup_app; [exact Hnd | repeat constructor; auto |].
  intros e He [<-|[]].
  assert (Habs : existsb (edge_eqb (u, v)) (edges g) = true); [|congruence].
  apply existsb_exists. exists (u, v). split; [exact He | now apply edge_eqb_eq].
Qed.

(** X1: the graph of the builder is a simple graph: its nodes are distinct,
    its edges are distinct (repeated calls between the same two names
    collapse), and both ends of every edge are nodes. *)
Theorem call_graph_is_simple (body : list stmt) :
  NoDup (nodes (build_graph body))
  /\ NoDup (edges (build_graph body))
  /\ forall u v, In (u, v) (edges (build_graph body)) ->
       In u (nodes (build_graph body)) /\ In v (nodes (build_graph body)).
Proof.
  destruct (build_graph_ok body) as [Hnodes Hends].
  split; [exact Hnodes|]. split; [|exact Hends].
  apply (build_graph_preserves (fun g => NoDup (edges g))).
  - constructor.
  - intros n g Hg. now rewrite add_node_edges.
  - intros u v g. apply add_edge_nodup_edges.
Qed.

Lemma visit_sound (D C : str -> Prop) (n : node) :
  (forall u, defines u n = true -> D u) ->
  (forall v, has_call v n = true -> C v) ->
  forall b, builder_sound D C b -> builder_sound D C (visit n b).
Proof.
  induction n as [name children IH | func args IHf IHa | id | children IH]
    using node_induction; intros HD HC b Hb; cbn [visit].
  - rewrite Forall_forall in IH. apply fold_visit_preserves.
    + intros c Hc. apply IH; [exact Hc| |].
      * intros u Hu. apply HD. cbn [defines]. apply orb_true_iff. right.
        apply existsb_exists. eauto.
      * intros v Hv. apply HC. cbn [has_call]. apply existsb_exists. eauto.
    + destruct Hb as (He & Hn & _).
      assert (Hname : D name).
      { apply HD. cbn [defines]. now rewrite str_eqb_refl. }
      split; [|split]; cbn [graph current_function].
      * intros u v Huv. rewrite add_node_edges in Huv. now apply He.
      * intros v Hv. apply add_node_nodes in Hv as [->|Hv]; [now left | now apply Hn].
      * intros f Hf. inversion Hf; subst. exact Hname.
  - rewrite Forall_forall in IHa. apply fold_visit_preserves.
    + intros c Hc. apply IHa; [exact Hc| |].
      * intros u Hu. apply HD. cbn [defines]. apply orb_true_iff. right.
        apply existsb_exists. eauto.
      * intros v Hv. apply HC. cbn [has_call]. apply orb_true_iff. right.
        apply existsb_exists. eauto.
    + apply IHf.
      * intros u Hu. apply HD. cbn [defines]. now rewrite Hu.
      * intros v Hv. apply HC. cbn [has_call]. rewrite Hv. now rewrite orb_true_r.
      * destruct (is_Name func) as [id|] eqn:Hid; [|exact Hb].
        destruct (current_truthy b) as [f|] eqn:Hf; [|exact Hb].
        apply current_truthy_some in Hf. destruct Hb as (He & Hn & Hc).
        assert (Df : D f) by now apply Hc.
        assert (Cid : C id).
        { apply HC. cbn [has_call]. rewrite Hid. now rewrite str_eqb_refl. }
        split; [|split]; cbn [graph current_function].
        -- intros u v Huv. apply add_edge_edges in Huv as [Heq|Huv]; [|now apply He].
           inversion Heq; subst. now split.
        -- intros v Hv. apply add_edge_nodes in Hv as [->|[->|Hv]]; auto.
        -- exact Hc.
  - exact Hb.
  - rewrite Forall_forall in IH. apply fold_visit_preserves; [|exact Hb].
    intros c Hc. apply IH; [exact Hc| |].
    + intros u Hu. apply HD. cbn [defines]. apply existsb_exists. eauto.
    + intros v Hv. apply HC. cbn [has_call]. apply existsb_exists. eauto.
Qed.

(** X2: the caller of every edge is the name of a function definition of the
    module, at any depth, and its callee is the simple name some call of the
    module calls; every node is one or the other.  Calls through attributes
    or other expressions leave no trace in the graph. *)
Theorem call_graph_names_come_from_the_module (body : list stmt) :
  (forall u v, In (u, v) (edges (build_graph body)) ->
     (exists st, In st body /\ defines u (ast st) = true)
     /\ (exists st, In st body /\ has_call v (ast st) = true))
  /\ (forall v, In v (nodes (build_graph body)) ->
       (exists st, In st body /\ defines v (ast st) = true)
       \/ (exists st, In st body /\ has_call v (ast st) = true)).
Proof.
  set (D := fun u => exists st, In st body /\ defines u (ast st) = true).
  set (C := fun v => exists st, In st body /\ has_call v (ast st) = true).
  assert (H : builder_sound D C (visit_module body)).
  { unfold visit_module. rewrite visit_module_eq. apply fold_visit_preserves.
    - intros n Hn. apply in_map_iff in Hn as (st & <- & Hst).
      apply visit_sound; intros x Hx; exists st; auto.
    - split; [|split]; simpl; intros; try contradiction; discriminate. }
  destruct H as (He & Hn & _). split; [exact He | exact Hn].
Qed.

(** The visitor never removes an edge of the graph. *)
Lemma visit_keeps_edges (e : str * str) (n : node) :
  forall b, In e (edges (graph b)) -> In e (edges (graph (visit n b))).
Proof.
  intros b. revert n b.
  apply (visit_graph_preserves (fun g => In e (edges g))).
  - intros n g Hg. now rewrite add_node_edges.
  - intros u v g Hg. apply add_edge_edges. now right.
Qed.

(** A node without function definition leaves the current function as it
    is. *)
Lemma visit_flat_current (n : node) :
  flat n = true -> forall b, current_function (visit n b) = current_function b.
Proof.
  induction n as [name children IH | func args IHf IHa | id | children IH]
    using node_induction; intros Hflat b; cbn [visit]; cbn [flat] in Hflat.
  - discriminate.
  - apply andb_prop in Hflat as [Hf Ha].
    rewrite Forall_forall in IHa. rewrite forallb_forall in Ha.
    apply (fold_visit_preserves (fun b' => current_function b' = current_function b)).
    + intros c Hc b' Hb'. rewrite IHa; auto.
    + rewrite IHf by exact Hf. now destruct (is_Name func), (current_truthy b).
  - reflexivity.
  - rewrite Forall_forall in IH. rewrite forallb_forall in Hflat.
    apply (fold_visit_preserves (fun b' => current_function b' = current_function b));
      [|reflexivity].
    intros c Hc b' Hb'. rewrite IH; auto.
Qed.

Lemma visit_flat_truthy (n : node) (f : str) (b : builder) :
  flat n = true -> current_truthy b = Some f -> current_truthy (visit n b) = Some f.
Proof.
  intros Hflat Hb. unfold current_truthy in *. now rewrite visit_flat_current.
Qed.

Lemma fold_flat_records (f p : str) (children : list node) (c : node) :
  In c children ->
  (forall n, In n children -> flat n = true) ->
  (forall b, current_truthy b = Some f -> In (f, p) (edges (graph (visit c b)))) ->
  forall b, current_truthy b = Some f ->
    In (f, p) (edges (graph (fold_left (fun b child => visit child b) children b))).
Proof.
  intros Hc Hflat Hrec.
  apply (fold_visit_reaches (fun b => current_truthy b = Some f)
           (fun b => In (f, p) (edges (graph b))) children c).
  - exact Hc.
  - intros n Hn b Hb. apply visit_flat_truthy; auto.
  - exact Hrec.
  - intros n b. apply visit_keeps_edges.
Qed.

(** Inside a function without nested definition, every call to a simple name
    is recorded with the function as caller. *)
Lemma visit_flat_records (f p : str) (n : node) :
  flat n = true -> has_call p n = true ->
  forall b, current_truthy b = Some f -> In (f, p) (edges (graph (visit n b))).
Proof.
  induction n as [name children IH | func args IHf IHa | id | children IH]
    using node_induction; intros Hflat Hcall b Hb;
    cbn [visit]; cbn [flat] in Hflat; cbn [has_call] in Hcall.
  - discriminate.
  - apply andb_prop in Hflat as [Hf Ha].
    rewrite Forall_forall in IHa. rewrite forallb_forall in Ha.
    set (b1 := match is_Name func, current_truthy b with
               | Some id, Some f => Builder (add_edge f id (graph b)) (current_function b)
               | _, _ => b
               end).
    assert (Hb1 : current_truthy b1 = Some f).
    { subst b1. destruct (is_Name func); [rewrite Hb|]; exact Hb. }
    apply orb_prop in Hcall as [Hcall|Hcall]; [apply orb_prop in Hcall as [Hcall|Hcall]|].
    + apply fold_visit_preserves; [intros n _; apply visit_keeps_edges|].
      apply visit_keeps_edges. subst b1.
      destruct (is_Name func) as [id|]; [|discriminate].
      apply str_eqb_eq in Hcall. subst id. rewrite Hb.
      cbn [graph]. apply add_edge_edges. now left.
    + apply fold_visit_preserves; [intros n _; apply visit_keeps_edges|].
      now apply IHf.
    + apply existsb_exists in Hcall as (c & Hc & Hcall).
      apply (fold_flat_records f p args c Hc Ha).
      * intros b' Hb'. apply IHa; auto.
      * now apply visit_flat_truthy.
  - discriminate.
  - rewrite Forall_forall in IH. rewrite forallb_forall in Hflat.
    apply existsb_exists in Hcall as (c & Hc & Hcall).
    apply (fold_flat_records f p children c Hc Hflat); [|exact Hb].
    intros b' Hb'. apply IH; auto.
Qed.

Lemma flat_function_edge (body : list stmt) (st : stmt) (f p : str)
    (children : list node) :
  In st body -> ast st = FunctionDef f children ->
  truthy f = true -> forallb flat children = true ->
  has_call p (ast st) = true ->
  In (f, p) (edges (build_graph body)).
Proof.
  intros Hst Hast Hname Hflat Hcall.
  unfold build_graph, visit_module. rewrite visit_module_eq.
  apply (fold_visit_reaches (fun _ => True) (fun b => In (f, p) (edges (graph b)))
           (map ast body) (ast st)).
  - now apply in_map.
  - auto.
  - intros b _. rewrite Hast in *. cbn [has_call] in Hcall.
    apply existsb_exists in Hcall as (c & Hc & Hcall).
    rewrite forallb_forall in Hflat. cbn [visit].
    apply (fold_flat_records f p children c Hc Hflat).
    + intros b' Hb'. apply visit_flat_records; auto.
    + unfold current_truthy. cbn [current_function]. now rewrite Hname.
  - intros n b. apply visit_keeps_edges.
  - exact I.
Qed.

(** X3: for a top-level function with no nested definition, every call to a
    simple name that occurs in it is recorded as an edge from the function to
    the called name. *)
Theorem flat_function_calls_are_edges (body : list stmt) (st : stmt) (f p : str)
    (children : list node) :
  In st body -> ast st = FunctionDef f children ->
  truthy f = true -> forallb flat children = true ->
  has_call p (ast st) = true ->
  In (f, p) (edges (build_graph body))
  /\ In f (nodes (build_graph body)) /\ In p (nodes (build_graph body)).
Proof.
  intros Hst Hast Hname Hflat Hcall.
  assert (He : In (f, p) (edges (build_graph body)))
    by (apply (flat_function_edge body st f p children); assumption).
  split; [exact He|]. now apply (proj2 (build_graph_ok body)).
Qed.

Lemma flat_function_calls_are_edges_witness :
  In (py "f", py "print") (edges (build_graph print_body))
  /\ In (py "f") (nodes (build_graph print_body))
  /\ In (py "print") (nodes (build_graph print_body)).
Proof.
  apply (flat_function_calls_are_edges print_body
           (nth 0 print_body (Stmt (Name []) [])) (py "f") (py "print")
           [Other []; Other [Call (Name (py "print")) [Other []]]]).
  - left. reflexivity.
  - reflexivity.
  - reflexivity.
  - reflexivity.
  - reflexivity.
Defined.

(** X4: two top-level functions without nested definitions that call each
    other by name lie in the same cluster, whatever the listing of the
    components. *)
Theorem mutual_calls_share_a_cluster (body : list stmt) (clusters : list (list str))
    (sf sg : stmt) (f g : str) (cf cg : list node) :
  scc_listing (build_graph body) clusters ->
  In sf body -> ast sf = FunctionDef f cf -> truthy f = true ->
  forallb flat cf = true -> has_call g (ast sf) = true ->
  In sg body -> ast sg = FunctionDef g cg -> truthy g = true ->
  forallb flat cg = true -> has_call f (ast sg) = true ->
  exists c, In c clusters /\ In f c /\ In g c.
Proof.
  intros Hscc Hsf Haf Hnf Hff Hcf Hsg Hag Hng Hfg Hcg.
  assert (Hfg' : In (f, g) (edges (build_graph body)))
    by (apply (flat_function_edge body sf f g cf); assumption).
  assert (Hgf' : In (g, f) (edges (build_graph body)))
    by (apply (flat_function_edge body sg g f cg); assumption).
  destruct (proj2 (build_graph_ok body) f g Hfg') as [Hf Hg].
  apply (scc_cover _ _ Hscc) in Hf as (c & Hc & Hfc).
  apply (scc_cover _ _ Hscc) in Hg as (c' & Hc' & Hgc').
  destruct (In_nth_error _ _ Hc) as (i & Hi).
  destruct (In_nth_error _ _ Hc') as (j & Hj).
  assert (Hij : i = j).
  { apply (scc_classes _ _ Hscc i j c c' f g Hi Hj Hfc Hgc').
    split; apply rt_step; assumption. }
  subst j. rewrite Hi in Hj. inversion Hj; subst c'.
  exists c. auto.
Qed.

Lemma mutual_calls_share_a_cluster_witness :
  exists c, In c mutual_clusters /\ In (py "a") c /\ In (py "b") c.
Proof.
  apply (mutual_calls_share_a_cluster mutual_body mutual_clusters
           (nth 0 mutual_body (Stmt (Name []) []))
           (nth 1 mutual_body (Stmt (Name []) []))
           (py "a") (py "b")
           [Other []; Other [Call (Name (py "b")) []]]
           [Other []; Other [Call (Name (py "a")) []]]).
  - check_listing.
  - left. reflexivity.
  - reflexivity.
  - reflexivity.
  - reflexivity.
  - reflexivity.
  - right. left. reflexivity.
  - reflexivity.
  - reflexivity.
  - reflexivity.
  - reflexivity.
Defined.

(** A node without function definition, visited while no current function is
    set, changes nothing. *)
Lemma visit_flat_idle (n : node) :
  flat n = true -> forall b, current_truthy b = None -> visit n b = b.
Proof.
  induction n as [name children IH | func args IHf IHa | id | children IH]
    using node_induction; intros Hflat b Hb; cbn [visit]; cbn [flat] in Hflat.
  - discriminate.
  - apply andb_prop in Hflat as [Hf Ha].
    rewrite Forall_forall in IHa. rewrite forallb_forall in Ha.
    rewrite Hb. replace (match is_Name func with Some _ | _ => b end) with b
      by now destruct (is_Name func).
    rewrite IHf by assumption.
    apply (fold_visit_preserves (fun b' => b' = b)); [|reflexivity].
    intros c Hc b' ->. apply IHa; auto.
  - reflexivity.
  - rewrite Forall_forall in IH. rewrite forallb_forall in Hflat.
    apply (fold_visit_preserves (fun b' => b' = b)); [|reflexivity].
    intros c Hc b' ->. apply IH; auto.
Qed.

(** X5: a module in which no function definition occurs has an empty call
    graph, hence no cluster, and [chunk_code] returns the trimmed text of its
    statements (the trimmed source when that text is blank), cut by the budget
    stage if it is too long. *)
Theorem module_without_definitions (source : str) (body : list stmt)
    (clusters : list (list str)) :
  (forall st, In st body -> flat (ast st) = true) ->
  build_graph body = empty_graph
  /\ (scc_listing (build_graph body) clusters ->
      clusters = []
      /\ chunk_code source body clusters
         = final_pieces
             (if truthy (strip (global_code source body))
              then strip (global_code source body)
              else strip source)).
Proof.
  intros Hflat.
  assert (Hg : visit_module body = new_builder).
  { unfold visit_module. rewrite visit_module_eq.
    apply (fold_visit_preserves (fun b => b = new_builder)); [|reflexivity].
    intros n Hn b ->. apply in_map_iff in Hn as (st & <- & Hst).
    apply visit_flat_idle; [now apply Hflat | reflexivity]. }
  assert (Hgraph : build_graph body = empty_graph)
    by (unfold build_graph; now rewrite Hg).
  split; [exact Hgraph|]. intros Hscc.
  rewrite Hgraph in Hscc. apply scc_listing_empty in Hscc. subst clusters.
  split; [reflexivity|].
  rewrite chunk_code_flat_map, assemble_eq. cbv zeta. cbn [flat_map].
  rewrite app_nil_r.
  destruct (truthy (strip (global_code source body))); cbn [truthy flat_map app];
    now rewrite app_nil_r.
Qed.

Lemma module_without_definitions_witness :
  build_graph script_body = empty_graph
  /\ chunk_code (py "print(1)") script_body [] = [py "print(1)"].
Proof.
  destruct (module_without_definitions (py "print(1)") script_body []) as [Hg Hc].
  - intros st [<-|[]]. reflexivity.
  - split; [exact Hg|].
    destruct Hc as [_ Hc]; [rewrite Hg; check_listing|].
    rewrite Hc. vm_compute. reflexivity.
Defined.

(** ** The dictionary of functions and the text of the clusters *)

Lemma func_nodes_snoc (body : list stmt) (st : stmt) :
  func_nodes (body ++ [st])
  = match function_name (ast st) with
    | Some name => dict_set name st (func_nodes body)
    | None => func_nodes body
    end.
Proof. unfold func_nodes. now rewrite fold_left_app. Qed.

Lemma top_level_functions_app (l1 l2 : list stmt) :
  top_level_functions (l1 ++ l2) = top_level_functions l1 ++ top_level_functions l2.
Proof. unfold top_level_functions. apply flat_map_app. Qed.

(** X6: [func_nodes] maps a name to the last top-level definition that bears
    it: an earlier definition of the same name is not in the dictionary. *)
Theorem func_nodes_keeps_last_definition (body : list stmt) (f : str) (st : stmt) :
  dict_get f (func_nodes body) = Some st
  <-> exists before after,
        body = before ++ st :: after
        /\ function_name (ast st) = Some f
        /\ ~ In f (top_level_functions after).
Proof.
  induction body as [|x body IH] using rev_ind.
  - simpl. split; [discriminate|].
    intros (before & after & H & _). destruct before; discriminate.
  - rewrite func_nodes_snoc. split.
    + intros Hget.
      assert (Hold : dict_get f (func_nodes body) = Some st ->
                     ~ In f (top_level_functions [x]) ->
                     exists before after,
                       body ++ [x] = before ++ st :: after
                       /\ function_name (ast st) = Some f
                       /\ ~ In f (top_level_functions after)).
      { intros Hst Hx. apply IH in Hst as (before & after & -> & Hf & Hno).
        exists before, (after ++ [x]). rewrite <- app_assoc. split; [reflexivity|].
        split; [exact Hf|]. rewrite top_level_functions_app, in_app_iff. tauto. }
      destruct (function_name (ast x)) as [name|] eqn:Hname.
      * rewrite dict_get_set in Hget. destruct (str_eqb f name) eqn:Hfn.
        -- apply str_eqb_eq in Hfn. subst name. inversion Hget; subst x.
           exists body, []. repeat split; auto.
        -- apply Hold; [exact Hget|]. apply str_eqb_neq in Hfn.
           unfold top_level_functions. simpl. rewrite Hname. intros [Heq|[]]. congruence.
      * apply Hold; [exact Hget|]. unfold top_level_functions. simpl. now rewrite Hname.
    + intros (before & after & Hbody & Hf & Hno).
      destruct after as [|y after] using rev_ind.
      * apply app_inj_tail in Hbody as [-> ->]. rewrite Hf, dict_get_set.
        now rewrite str_eqb_refl.
      * clear IHafter. rewrite app_comm_cons, app_assoc in Hbody.
        apply app_inj_tail in Hbody as [-> ->].
        rewrite top_level_functions_app, in_app_iff in Hno.
        assert (Hst : dict_get f (func_nodes (before ++ st :: after)) = Some st).
        { apply IH. exists before, after. repeat split; auto. }
        destruct (function_name (ast y)) as [name|] eqn:Hname; [|exact Hst].
        rewrite dict_get_set. destruct (str_eqb f name) eqn:Hfn; [|exact Hst].
        apply str_eqb_eq in Hfn. subst name. exfalso. apply Hno. right.
        unfold top_level_functions. simpl. rewrite Hname. now left.
Qed.

Lemma func_nodes_keeps_last_definition_witness :
  (dict_get (py "f") (func_nodes twice_body)
   = Some (nth 1 twice_body (Stmt (Name []) [])))
  /\ exists before after,
       twice_body = before ++ nth 1 twice_body (Stmt (Name []) []) :: after
       /\ function_name (ast (nth 1 twice_body (Stmt (Name []) []))) = Some (py "f")
       /\ ~ In (py "f") (top_level_functions after).
Proof.
  assert (H : dict_get (py "f") (func_nodes twice_body)
              = Some (nth 1 twice_body (Stmt (Name []) []))) by reflexivity.
  split; [exact H|].
  exact (proj1 (func_nodes_keeps_last_definition twice_body (py "f") _) H).
Defined.

Lemma func_nodes_some (body : list stmt) (f : str) (st : stmt) :
  dict_get f (func_nodes body) = Some st -> In f (top_level_functions body).
Proof.
  intros H. destruct (in_dec (list_eq_dec N.eq_dec) f (top_level_functions body))
    as [Hin|Hout]; [exact Hin|].
  apply func_nodes_none in Hout. congruence.
Qed.

Lemma split_large_function_nonempty (nd : stmt) (source : str) (max_lines : Z) :
  0 <= max_lines -> split_large_function nd source max_lines <> [].
Proof.
  intros Hmax.
  destruct (Z.leb_spec (len (splitlines (get_source_segment source nd))) max_lines)
    as [Hle|Hgt].
  - unfold split_large_function.
    destruct (Z.leb_spec (len (splitlines (get_source_segment source nd))) max_lines);
      [discriminate | lia].
  - destruct (split_large_function_groups nd source max_lines Hgt)
      as (gs & rest & Hs & Hc & _).
    rewrite Hs. intros Hnil. apply app_eq_nil in Hnil as [Hgs Hrest].
    destruct gs; [|discriminate]. destruct rest; [|discriminate].
    simpl in Hc. rewrite <- Hc in Hgt. unfold len in Hgt. simpl in Hgt. lia.
Qed.

(** Every cluster adds at least one chunk. *)
Lemma cluster_chunks_nonempty (source : str) (fn : list (str * stmt))
    (cluster : list str) :
  cluster_chunks source fn cluster <> [].
Proof.
  unfold cluster_chunks.
  destruct (Z.ltb_spec 100 (len (splitlines (full_code source fn cluster))))
    as [Hbig|_]; [|discriminate].
  assert (Hne : full_code source fn cluster <> []).
  { intros Hnil. rewrite Hnil in Hbig. unfold len in Hbig. simpl in Hbig. lia. }
  rewrite full_code_eq in Hne. clear Hbig.
  induction cluster as [|f cluster IH]; [now elim Hne|].
  cbn [flat_map] in *. destruct (dict_get f fn) as [nd|].
  - intros Hnil. apply app_eq_nil in Hnil as [Hnil _].
    revert Hnil. apply split_large_function_nonempty. lia.
  - simpl in *. now apply IH.
Qed.

(** X7: under any listing of the components, every top-level function (the
    last definition of its name) is rendered: its name lies in exactly one
    cluster, the text of that cluster holds its span followed by a blank
    line, and when the cluster is over the threshold the pieces the structural
    splitter makes of the span are among the chunks of the cluster. *)
Theorem every_function_is_rendered (source : str) (body : list stmt)
    (clusters : list (list str)) (f : str) (st : stmt) :
  scc_listing (build_graph body) clusters ->
  dict_get f (func_nodes body) = Some st ->
  exists i cluster,
    nth_error clusters i = Some cluster /\ In f cluster
    /\ (forall j c, nth_error clusters j = Some c -> In f c -> j = i)
    /\ (exists before after,
          full_code source (func_nodes body) cluster
          = before ++ (get_source_segment source st ++ [LF; LF]) ++ after)
    /\ (100 < len (splitlines (full_code source (func_nodes body) cluster)) ->
        incl (split_large_function st source 50)
          (cluster_chunks source (func_nodes body) cluster))
    /\ incl (cluster_chunks source (func_nodes body) cluster)
         (assemble source body clusters).
Proof.
  intros Hscc Hget.
  assert (Hnode : In f (nodes (build_graph body)))
    by (apply top_level_functions_are_nodes; eapply func_nodes_some; eauto).
  apply (scc_cover _ _ Hscc) in Hnode as (cluster & Hcl & Hf).
  destruct (In_nth_error _ _ Hcl) as (i & Hi).
  exists i, cluster. split; [exact Hi|]. split; [exact Hf|]. split; [|split; [|split]].
  - intros j c Hj Hfc. exact (scc_disjoint _ _ Hscc j i c cluster f Hj Hi Hfc Hf).
  - rewrite full_code_eq. destruct (in_split _ _ Hf) as (l1 & l2 & ->).
    rewrite flat_map_app. cbn [flat_map]. rewrite Hget. eauto.
  - intros Hbig. unfold cluster_chunks.
    destruct (Z.ltb_spec 100 (len (splitlines (full_code source (func_nodes body) cluster))));
      [|lia].
    intros c Hc. apply in_flat_map. exists f. split; [exact Hf|]. now rewrite Hget.
  - intros c Hc. eapply in_assemble_cluster_chunk; eauto.
Qed.

Lemma every_function_is_rendered_witness :
  exists i cluster,
    nth_error print_clusters i = Some cluster /\ In (py "f") cluster
    /\ (forall j c, nth_error print_clusters j = Some c -> In (py "f") c -> j = i)
    /\ (exists before after,
          full_code print_source (func_nodes print_body) cluster
          = before
            ++ (get_source_segment print_source (nth 0 print_body (Stmt (Name []) []))
                ++ [LF; LF]) ++ after)
    /\ (100 < len (splitlines (full_code print_source (func_nodes print_body) cluster)) ->
        incl (split_large_function (nth 0 print_body (Stmt (Name []) [])) print_source 50)
          (cluster_chunks print_source (func_nodes print_body) cluster))
    /\ incl (cluster_chunks print_source (func_nodes print_body) cluster)
         (assemble print_source print_body print_clusters).
Proof.
  apply (every_function_is_rendered print_source print_body print_clusters (py "f")).
  - check_listing.
  - reflexivity.
Defined.

Lemma cluster_chunks_count (source : str) (fn : list (str * stmt))
    (clusters : list (list str)) :
  (length clusters <= length (flat_map (cluster_chunks source fn) clusters))%nat.
Proof.
  induction clusters as [|c cs IH]; [simpl; lia|].
  cbn [flat_map]. rewrite length_app.
  pose proof (cluster_chunks_nonempty source fn c) as Hc.
  destruct (cluster_chunks source fn c); [congruence|]. simpl. lia.
Qed.

(** X8: every cluster contributes at least one chunk, so that the chunk list
    is the module-level chunk, if any, followed by the chunks of the clusters
    whenever the module has a top-level function; the fallback to the whole
    trimmed source is used only when there is no cluster and no module-level
    text. *)
Theorem fallback_only_without_chunks (source : str) (body : list stmt)
    (clusters : list (list str)) :
  let g := strip (global_code source body) in
  let chunks :=
    (if truthy g then [g] else [])
    ++ flat_map (cluster_chunks source (func_nodes body)) clusters in
  (length clusters <= length (flat_map (cluster_chunks source (func_nodes body)) clusters))%nat
  /\ (clusters <> [] \/ g <> [] -> assemble source body clusters = chunks)
  /\ (clusters = [] -> g = [] -> assemble source body clusters = [strip source])
  /\ (scc_listing (build_graph body) clusters ->
      top_level_functions body <> [] -> assemble source body clusters = chunks).
Proof.
  intros g chunks.
  pose proof (cluster_chunks_count source (func_nodes body) clusters) as Hlen.
  assert (Hsome : clusters <> [] \/ g <> [] -> assemble source body clusters = chunks).
  { intros Hor. rewrite assemble_eq. cbv zeta. fold g. fold chunks.
    destruct chunks as [|c l] eqn:Hch; [|reflexivity]. exfalso.
    subst chunks. apply app_eq_nil in Hch as [Hg Hcl]. destruct Hor as [Hc|Hc].
    - rewrite Hcl in Hlen. destruct clusters; [congruence | simpl in Hlen; lia].
    - destruct g; [congruence | discriminate]. }
  split; [exact Hlen|]. split; [exact Hsome|]. split.
  - intros -> Hg. rewrite assemble_eq. cbv zeta. fold g. now rewrite Hg.
  - intros Hscc Hf. apply Hsome. left. intros ->.
    destruct (top_level_functions body) as [|f l] eqn:Htl; [congruence|].
    assert (Hin : In f (nodes (build_graph body)))
      by (apply top_level_functions_are_nodes; rewrite Htl; now left).
    apply (scc_cover _ _ Hscc) in Hin as (c & [] & _).
Qed.

Lemma fallback_only_without_chunks_witness :
  assemble print_source print_body print_clusters
  = flat_map (cluster_chunks print_source (func_nodes print_body)) print_clusters.
Proof.
  refine (proj2 (proj2 (proj2 (fallback_only_without_chunks
                                 print_source print_body print_clusters))) _ _).
  - check_listing.
  - discriminate.
Defined.

Lemma global_code_from (source : str) (body : list stmt) :
  forall acc,
    fold_left
      (fun acc st =>
         match function_name (ast st) with
         | Some _ => acc
         | None => acc ++ (get_source_segment source st ++ [LF; LF])
         end)
      body acc
    = acc ++ flat_map (fun st => get_source_segment source st ++ [LF; LF])
               (filter (fun st => match function_name (ast st) with
                                  | Some _ => false
                                  | None => true
                                  end) body).
Proof.
  induction body as [|st body IH]; intros acc; cbn [fold_left filter].
  - simpl. now rewrite app_nil_r.
  - rewrite IH. destruct (function_name (ast st)); [reflexivity|].
    cbn [flat_map]. now rewrite <- app_assoc.
Qed.

(** X9: the module-level statements, that is the statements of the module
    that are no function definition, are gathered in source order, each
    followed by a blank line, into one text; when that text is not blank, its
    trimmed form is the first chunk of the list handed to the budget stage,
    before every chunk of a cluster. *)
Theorem module_level_chunk_comes_first (source : str) (body : list stmt)
    (clusters : list (list str)) :
  global_code source body
  = flat_map (fun st => get_source_segment source st ++ [LF; LF])
      (filter (fun st => match function_name (ast st) with
                         | Some _ => false
                         | None => true
                         end) body)
  /\ (strip (global_code source body) <> [] ->
      assemble source body clusters
      = strip (global_code source body)
        :: flat_map (cluster_chunks source (func_nodes body)) clusters).
Proof.
  split.
  - unfold global_code. now rewrite global_code_from.
  - intros Hg. rewrite assemble_eq. cbv zeta.
    destruct (strip (global_code source body)); [congruence | reflexivity].
Qed.

Lemma module_level_chunk_comes_first_witness :
  assemble mixed_source mixed_body [[py "x"]]
  = strip (global_code mixed_source mixed_body)
    :: flat_map (cluster_chunks mixed_source (func_nodes mixed_body)) [[py "x"]].
Proof.
  apply (proj2 (module_level_chunk_comes_first mixed_source mixed_body [[py "x"]])).
  vm_compute. discriminate.
Defined.

(** ** More on the structural splitter *)

Lemma concat_min_length (m : Z) (gs : list (list str)) :
  Forall (fun g => m <= len g) gs ->
  Z.of_nat (length gs) * m <= len (concat gs).
Proof.
  induction 1 as [|g gs Hg _ IH]; [simpl; unfold len; simpl; lia|].
  cbn [concat length]. rewrite len_app. lia.
Qed.

Lemma flush_due_budget (max_lines : Z) (g : list str) :
  flush_due max_lines g = true ->
  max_lines <= len g
  /\ startswith_any (strip (last g [])) keywords = true.
Proof.
  unfold flush_due. intros H. apply andb_prop in H as [H Hlen].
  apply andb_prop in H as [_ Hkw]. apply Z.leb_le in Hlen. auto.
Qed.

(** X10: when no line at or after position [max_lines] starts, once
    stripped, with one of the prefixes, a text over the budget is not split
    at all: the splitter returns its lines joined as a single chunk, however
    long. *)
Theorem no_boundary_no_split (nd : stmt) (source : str) (max_lines : Z) :
  let lines := splitlines (get_source_segment source nd) in
  0 <= max_lines -> max_lines < len lines ->
  (forall n, (n < length lines)%nat -> max_lines <= Z.of_nat (S n) ->
             startswith_any (strip (nth n lines [])) keywords = false) ->
  split_large_function nd source max_lines = [join NL lines].
Proof.
  intros lines Hmax Hover Hno.
  destruct (split_large_function_groups nd source max_lines Hover)
    as (gs & rest & Hs & Hc & Hg & _).
  fold lines in Hc. destruct gs as [|g gs].
  - simpl in Hc. subst rest. rewrite Hs. simpl.
    destruct lines; [unfold len in Hover; simpl in Hover; lia | reflexivity].
  - exfalso. inversion Hg as [|? ? [Hdue _] _]; subst.
    apply flush_due_budget in Hdue as [Hlen Hkw].
    assert (Hpos : (0 < length g)%nat).
    { destruct g; [simpl in Hkw; discriminate | simpl; lia]. }
    cbn [concat] in Hc. rewrite <- app_assoc in Hc.
    assert (Hfirst : firstn (length g) lines = g).
    { rewrite <- Hc. rewrite firstn_app, firstn_all.
      replace (length g - length g)%nat with O by lia.
      rewrite firstn_O. now rewrite app_nil_r. }
    assert (Hlt : (length g - 1 < length lines)%nat).
    { rewrite <- Hc. rewrite length_app. lia. }
    specialize (Hno (length g - 1)%nat Hlt).
    pose proof (last_firstn_nth [] lines (length g - 1) Hlt) as Hlast.
    replace (S (length g - 1)) with (length g) in * by lia.
    unfold str, char in *. rewrite Hfirst in Hlast.
    rewrite Hlast, Hno in Hkw; [discriminate|].
    unfold len in Hlen. lia.
Qed.

Lemma no_boundary_no_split_witness :
  split_large_function straight_function [] 50
  = [join NL (splitlines (get_source_segment [] straight_function))].
Proof.
  apply (no_boundary_no_split straight_function [] 50).
  - lia.
  - vm_compute. reflexivity.
  - intros n Hn Hpos.
    assert (Hall : forallb
                     (fun l => negb (startswith_any (strip l) keywords))
                     (skipn 49 (splitlines (get_source_segment [] straight_function)))
                   = true) by (vm_compute; reflexivity).
    rewrite forallb_forall in Hall.
    apply negb_true_iff. apply Hall.
    assert (Hnth : nth n (splitlines (get_source_segment [] straight_function)) []
                   = nth (n - 49) (skipn 49 (splitlines (get_source_segment [] straight_function))) []).
    { rewrite nth_skipn. f_equal. lia. }
    rewrite Hnth. apply nth_In. rewrite length_skipn. lia.
Defined.

(** X11: on a text over the budget, every chunk but the last holds at least
    [max_lines] lines, so that the number of chunks, less one, times
    [max_lines] is at most the number of lines of the text. *)
Theorem structural_chunk_count (nd : stmt) (source : str) (max_lines : Z) :
  let lines := splitlines (get_source_segment source nd) in
  0 <= max_lines -> max_lines < len lines ->
  (exists groups,
      split_large_function nd source max_lines = map (join NL) groups
      /\ concat groups = lines
      /\ forall i, (S i < length groups)%nat -> max_lines <= len (nth i groups []))
  /\ (len (split_large_function nd source max_lines) - 1) * max_lines <= len lines.
Proof.
  intros lines Hmax Hover.
  destruct (split_large_function_groups nd source max_lines Hover)
    as (gs & rest & Hs & Hc & Hg & _).
  fold lines in Hc.
  assert (Hmin : Forall (fun g => max_lines <= len g) gs).
  { eapply Forall_impl; [|exact Hg]. intros g [Hd _].
    now apply flush_due_budget in Hd as [Hd _]. }
  split.
  - exists (gs ++ (if truthy rest then [rest] else [])).
    rewrite Hs, map_join_tail, concat_tail. repeat split; auto.
    intros i Hi. rewrite length_app in Hi.
    assert (Hlt : (i < length gs)%nat) by (destruct (truthy rest); simpl in Hi; lia).
    rewrite app_nth1 by exact Hlt.
    rewrite Forall_forall in Hmin. apply Hmin. now apply nth_In.
  - pose proof (concat_min_length max_lines gs Hmin) as Hcat.
    assert (Hl : len lines = len (concat gs) + len rest)
      by (rewrite <- Hc; apply len_app).
    assert (Hn : len (split_large_function nd source max_lines) - 1
                 <= Z.of_nat (length gs)).
    { rewrite Hs. unfold len. rewrite length_app, length_map.
      destruct (truthy rest); simpl; lia. }
    pose proof (len_nonneg rest). nia.
Qed.

Lemma structural_chunk_count_witness :
  (len (split_large_function if_at_55 [] 50) - 1) * 50
  <= len (splitlines (get_source_segment [] if_at_55)).
Proof.
  apply (proj2 (structural_chunk_count if_at_55 [] 50 ltac:(lia)
                  ltac:(vm_compute; reflexivity))).
Defined.

(** X12: when the only line terminator of the text of a function is the
    newline and the text does not end in one, joining the chunks of the
    structural splitter with a newline gives the text back, whatever the
    budget: the split loses nothing. *)
Theorem structural_split_round_trip (nd : stmt) (source : str) (max_lines : Z) :
  (forall c, In c (get_source_segment source nd) -> is_linebreak c = true -> c = LF) ->
  (forall p, get_source_segment source nd <> p ++ [LF]) ->
  join NL (split_large_function nd source max_lines) = get_source_segment source nd.
Proof.
  intros Hbr Hend.
  destruct (Z.leb_spec (len (splitlines (get_source_segment source nd))) max_lines)
    as [Hle|Hover].
  - unfold split_large_function.
    destruct (Z.leb_spec (len (splitlines (get_source_segment source nd))) max_lines);
      [reflexivity | lia].
  - destruct (split_large_function_groups nd source max_lines Hover)
      as (gs & rest & Hs & Hc & Hg & _).
    rewrite Hs, map_join_tail, join_concat, concat_tail, Hc.
    + exact (join_splitlines_from _ [] Hbr Hend).
    + apply Forall_nonempty_tail. eapply Forall_impl; [|exact Hg].
      intros g [Hd _]. now apply flush_due_nonempty in Hd.
Qed.

Lemma structural_split_round_trip_witness :
  join NL (split_large_function if_at_55 [] 50) = get_source_segment [] if_at_55.
Proof.
  apply structural_split_round_trip.
  - apply only_newline_breaks_check. vm_compute. reflexivity.
  - apply no_final_newline_check. vm_compute. reflexivity.
Defined.

(** ** More on the budget splitter *)

Lemma weight_nonneg (l : list str) : 0 <= weight l.
Proof.
  induction l as [|x l IH]; simpl; [lia|]. pose proof (len_nonneg x). lia.
Qed.

Lemma greedy_cons (max_chars : Z) (g h : list str) (tl : list (list str)) :
  max_chars < weight g + (len (hd [] h) + 1) ->
  greedy max_chars (h :: tl) -> greedy max_chars (g :: h :: tl).
Proof. intros H1 H2. simpl. auto. Qed.

(** The loop flushes a buffer only when the next line does not fit. *)
Lemma budget_loop_greedy (max_chars : Z) (lines : list str) :
  forall small buffer,
    exists gs rest,
      fold_left (budget_step max_chars) lines (small, buffer, weight buffer)
      = (small ++ map (join NL) gs, rest, weight rest)
      /\ concat gs ++ rest = buffer ++ lines
      /\ greedy max_chars (gs ++ [rest])
      /\ (exists t, hd [] (gs ++ [rest]) = buffer ++ t)
      /\ Forall (fun g => g <> []) gs
      /\ (rest = [] -> buffer = [] /\ lines = []).
Proof.
  induction lines as [|line lines IH]; intros small buffer.
  - exists [], buffer. simpl. rewrite !app_nil_r.
    split; [reflexivity|]. split; [reflexivity|]. split; [exact I|].
    split; [exists []; now rewrite app_nil_r|]. split; [constructor|]. auto.
  - cbn [fold_left]. rewrite budget_step_eq.
    destruct (Z.ltb_spec max_chars (weight (buffer ++ [line]))) as [Hover|Hfit];
      [destruct buffer as [|b buffer]|]; cbn [truthy andb].
    + destruct (IH small [line]) as (gs & rest & Hf & Hc & Hg & Ht & Hne & Hrest).
      exists gs, rest.
      split; [exact Hf|]. split; [exact Hc|]. split; [exact Hg|].
      split; [destruct Ht as (t & Ht); exists (line :: t); exact Ht|].
      split; [exact Hne|].
      intros Hr. destruct (Hrest Hr) as [Habs _]. discriminate.
    + destruct (IH (small ++ [join NL (b :: buffer)]) [line])
        as (gs & rest & Hf & Hc & Hg & (t & Ht) & Hne & Hrest).
      exists ((b :: buffer) :: gs), rest.
      split; [|split; [|split; [|split; [|split]]]].
      * rewrite Hf. simpl map. now rewrite <- app_assoc.
      * cbn [concat]. rewrite <- !app_assoc. f_equal. exact Hc.
      * change (((b :: buffer) :: gs) ++ [rest]) with ((b :: buffer) :: (gs ++ [rest])).
        destruct (gs ++ [rest]) as [|h tl] eqn:Hgs; [now destruct gs|].
        apply greedy_cons; [|exact Hg].
        simpl in Ht. rewrite Ht. simpl hd.
        rewrite weight_app, weight_one in Hover. exact Hover.
      * exists []. simpl. now rewrite app_nil_r.
      * constructor; [discriminate | exact Hne].
      * intros Hr. destruct (Hrest Hr) as [Habs _]. discriminate.
    + destruct (IH small (buffer ++ [line]))
        as (gs & rest & Hf & Hc & Hg & (t & Ht) & Hne & Hrest).
      exists gs, rest.
      split; [exact Hf|]. split; [rewrite Hc; now rewrite <- app_assoc|].
      split; [exact Hg|].
      split; [exists (line :: t); rewrite Ht; now rewrite <- app_assoc|].
      split; [exact Hne|].
      intros Hr. destruct (Hrest Hr) as [Habs _]. now destruct buffer.
Qed.

(** X13: the budget splitter packs greedily: its sub-chunks are the joins of
    non-empty groups of consecutive lines, and the weight of each group but
    the last (its characters, one newline per line included) plus that of
    the first line of the next group exceeds the budget. *)
Theorem budget_split_is_greedy (chunk : str) (max_tokens : Z) :
  exists groups,
    split_large_chunk_by_token chunk max_tokens = map (join NL) groups
    /\ concat groups = splitlines chunk
    /\ Forall (fun g => g <> []) groups
    /\ greedy (max_tokens * APPROX_CHARS_PER_TOKEN) groups.
Proof.
  unfold split_large_chunk_by_token.
  destruct (budget_loop_greedy (max_tokens * APPROX_CHARS_PER_TOKEN)
              (splitlines chunk) [] [])
    as (gs & rest & Hf & Hc & Hg & _ & Hne & Hrest).
  change 0 with (weight []). rewrite Hf. simpl in Hc.
  exists (gs ++ (if truthy rest then [rest] else [])).
  rewrite <- map_join_tail, concat_tail. split; [|split; [|split]].
  - simpl. destruct (truthy rest); [reflexivity | now rewrite app_nil_r].
  - exact Hc.
  - now apply Forall_nonempty_tail.
  - destruct rest as [|r rest]; [|exact Hg]. simpl.
    destruct (Hrest eq_refl) as [_ Hlines]. rewrite Hlines in Hc.
    rewrite app_nil_r in Hc. destruct gs as [|g gs]; [exact I|].
    inversion Hne; subst. simpl in Hc. destruct g; [congruence | discriminate].
Qed.

Lemma budget_loop_fits (max_chars : Z) (lines : list str) :
  forall small buffer,
    weight (buffer ++ lines) <= max_chars ->
    fold_left (budget_step max_chars) lines (small, buffer, weight buffer)
    = (small, buffer ++ lines, weight (buffer ++ lines)).
Proof.
  induction lines as [|line lines IH]; intros small buffer Hfit.
  - simpl. now rewrite app_nil_r.
  - cbn [fold_left]. rewrite budget_step_eq.
    assert (Hw : weight (buffer ++ [line]) <= max_chars).
    { rewrite weight_app in *. simpl in *. pose proof (weight_nonneg lines). lia. }
    destruct (Z.ltb_spec max_chars (weight (buffer ++ [line]))); [lia|].
    cbn [andb]. rewrite IH; rewrite <- app_assoc; [reflexivity | exact Hfit].
Qed.

(** X14: the budget splitter returns no sub-chunk exactly on the empty chunk,
    and a chunk whose lines fit the budget together (their characters and one
    newline per line) comes back as a single sub-chunk, its lines joined. *)
Theorem budget_split_of_small_chunk (chunk : str) (max_tokens : Z) :
  (split_large_chunk_by_token chunk max_tokens = [] <-> chunk = [])
  /\ (chunk <> [] ->
      weight (splitlines chunk) <= max_tokens * APPROX_CHARS_PER_TOKEN ->
      split_large_chunk_by_token chunk max_tokens = [join NL (splitlines chunk)]).
Proof.
  split.
  - split.
    + intros Hnil. destruct chunk as [|c chunk]; [reflexivity|].
      exfalso. revert Hnil. apply split_large_chunk_by_token_nonempty. discriminate.
    + intros ->. reflexivity.
  - intros Hne Hfit. unfold split_large_chunk_by_token.
    change 0 with (weight []).
    rewrite budget_loop_fits by exact Hfit. simpl.
    destruct (splitlines chunk) eqn:Hl; [|reflexivity].
    apply splitlines_from_nil in Hl as [_ Hl]. congruence.
Qed.

Lemma budget_split_of_small_chunk_witness :
  split_large_chunk_by_token (get_source_segment [] small_function) 100
  = [join NL (splitlines (get_source_segment [] small_function))].
Proof.
  apply (proj2 (budget_split_of_small_chunk (get_source_segment [] small_function) 100)).
  - discriminate.
  - vm_compute. discriminate.
Defined.

(** ** [pipeline.py]: the Java wrapper *)

Lemma splitlines_from_line (l : str) :
  forall cur rest,
    Forall (fun c => is_linebreak c = false) l ->
    splitlines_from cur (l ++ LF :: rest) = (cur ++ l) :: splitlines_from [] rest.
Proof.
  induction l as [|c l IH]; intros cur rest Hl.
  - simpl. rewrite app_nil_r. now destruct rest.
  - inversion Hl as [|? ? Hc Hl']; subst. simpl. rewrite Hc.
    rewrite IH by exact Hl'. now rewrite <- app_assoc.
Qed.

(** The lines of a text made of lines each ended by a newline. *)
Lemma splitlines_terminated (ls : list str) :
  Forall (Forall (fun c => is_linebreak c = false)) ls ->
  splitlines (flat_map (fun l => l ++ NL) ls) = ls.
Proof.
  induction 1 as [|l ls Hl _ IH]; [reflexivity|].
  cbn [flat_map]. unfold NL at 1. rewrite <- app_assoc. cbn [app].
  unfold splitlines. rewrite splitlines_from_line by exact Hl.
  simpl app. f_equal. exact IH.
Qed.

Lemma join_terminated (ls : list str) :
  ls <> [] -> join NL ls ++ NL = flat_map (fun l => l ++ NL) ls.
Proof.
  induction ls as [|x ls IH]; intros Hne; [congruence|].
  destruct ls as [|y ls].
  - simpl. now rewrite app_nil_r.
  - rewrite join_cons2. cbn [flat_map] in *. rewrite <- IH by discriminate.
    now rewrite <- !app_assoc.
Qed.

Lemma java_indent_no_break (l : str) :
  Forall (fun c => is_linebreak c = false) l ->
  Forall (fun c => is_linebreak c = false) (java_indent l).
Proof.
  intros Hl. unfold java_indent. destruct (truthy (strip l)); [|constructor].
  apply Forall_app. split; [|exact Hl]. repeat constructor.
Qed.

(** X15: the lines of the text [wrap_java_code] returns are the two lines of
    the class and method header, then one line per line of the code, a blank
    line left empty and any other line put after eight spaces, then the two
    closing lines; on a code without lines the body is one empty line. *)
Theorem wrap_java_code_lines (code : str) :
  splitlines (wrap_java_code code)
  = java_header
    ++ (if truthy (splitlines code) then map java_indent (splitlines code) else [[]])
    ++ java_footer.
Proof.
  assert (Hbody : Forall (Forall (fun c => is_linebreak c = false))
                    (map java_indent (splitlines code))).
  { pose proof (splitlines_no_break code) as H.
    induction H; constructor; auto using java_indent_no_break. }
  assert (Hw : wrap_java_code code
               = flat_map (fun l => l ++ NL)
                   (java_header
                    ++ (if truthy (splitlines code)
                        then map java_indent (splitlines code) else [[]])
                    ++ java_footer)).
  { unfold wrap_java_code. cbv zeta. rewrite !flat_map_app.
    destruct (splitlines code) as [|l ls] eqn:Hl.
    - simpl. reflexivity.
    - cbn [truthy].
      pose proof (join_terminated (map java_indent (l :: ls))) as Hj.
      rewrite (app_assoc (join NL (map java_indent (l :: ls))) NL), Hj
        by discriminate.
      unfold java_header, java_footer.
      set (body := flat_map (fun l0 : list char => l0 ++ NL) (map java_indent (l :: ls))).
      cbn [flat_map]. rewrite !app_nil_r, <- !app_assoc. reflexivity. }
  rewrite Hw. apply splitlines_terminated.
  apply Forall_app. split; [repeat constructor|].
  apply Forall_app. split; [|repeat constructor].
  destruct (truthy (splitlines code)); [exact Hbody | repeat constructor].
Qed.

(** ** [pipeline.py]: the two runs *)

Lemma map_from_length {A B : Type} (f : nat -> A -> B) (l : list A) :
  forall i, length (map_from f i l) = length l.
Proof. induction l as [|x l IH]; intros i; simpl; [reflexivity | now rewrite IH]. Qed.

Lemma map_from_nth {A B : Type} (f : nat -> A -> B) (l : list A) :
  forall i k x, nth_error l k = Some x ->
    nth_error (map_from f i l) k = Some (f (i + k)%nat x).
Proof.
  induction l as [|y l IH]; intros i k x Hk; [destruct k; discriminate|].
  destruct k as [|k]; simpl in *.
  - inversion Hk; subst. now rewrite Nat.add_0_r.
  - rewrite (IH (S i) k x Hk). f_equal. f_equal. lia.
Qed.

Lemma version_step_eq (svc : services) (results : list (str * option exec_result))
    (chunk : str) :
  version_step svc results chunk
  = results ++ [version_entry svc (length results) chunk].
Proof.
  unfold version_entry, version_step. rewrite repeat_length.
  destruct (negb (truthy (strip chunk))); [now rewrite last_last|].
  destruct (run_chain svc (length results) chunk) as [answer|e];
    [|now rewrite last_last].
  destruct (lint svc (length results) (strip answer) (py "python")) as [linted|e];
    [|now rewrite last_last].
  destruct (execute svc (length results) linted (py "python")) as [r|e];
    now rewrite last_last.
Qed.

(** The loop of [PythonVersionPipeline.run] is a map over the chunks. *)
Lemma version_loop (svc : services) (chunks : list str) :
  forall results,
    fold_left (version_step svc) chunks results
    = results ++ map_from (version_entry svc) (length results) chunks.
Proof.
  induction chunks as [|c chunks IH]; intros results; cbn [fold_left map_from].
  - now rewrite app_nil_r.
  - rewrite IH, version_step_eq, length_app, <- app_assoc. simpl.
    now rewrite Nat.add_1_r.
Qed.

Lemma translate_chunk_exec (svc : services) (target : str) (i : nat) (chunk : str) :
  (strip chunk = [] -> translate_chunk svc target i chunk = ([], None))
  /\ (strip chunk <> [] -> exists r, snd (translate_chunk svc target i chunk) = Some r).
Proof.
  unfold translate_chunk. split.
  - intros ->. reflexivity.
  - intros Hne. destruct (strip chunk) eqn:Hs; [congruence|]. cbn [truthy negb].
    destruct (run_chain svc i chunk) as [answer|e]; [|simpl; eauto].
    destruct (lint svc i (strip answer) target) as [linted|e]; [|simpl; eauto].
    destruct (execute svc i _ target) as [r|e]; simpl; eauto.
Qed.

Lemma version_entry_exec (svc : services) (i : nat) (chunk : str) :
  (strip chunk = [] -> version_entry svc i chunk = ([], None))
  /\ (strip chunk <> [] -> exists r, snd (version_entry svc i chunk) = Some r).
Proof.
  unfold version_entry, version_step. rewrite repeat_length. split.
  - intros ->. cbn [truthy negb]. now rewrite last_last.
  - intros Hne. destruct (strip chunk) eqn:Hs; [congruence|]. cbn [truthy negb].
    destruct (run_chain svc i chunk) as [answer|e];
      [|rewrite last_last; simpl; eauto].
    destruct (lint svc i (strip answer) (py "python")) as [linted|e];
      [|rewrite last_last; simpl; eauto].
    destruct (execute svc i linted (py "python")) as [r|e];
      rewrite last_last; simpl; eauto.
Qed.

(** X16: both runs return one execution entry per chunk, in the order of the
    chunks: the entry of a blank chunk is [None], whatever the services
    answer, and the entry of any other chunk is a result record, that of the
    execution or that of the failure. *)
Theorem runs_keep_one_entry_per_chunk (svc : services) (target : str)
    (chunks : list str) :
  let polyglot := snd (polyglot_run svc target chunks) in
  let version := snd (version_run svc chunks) in
  length polyglot = length chunks
  /\ length version = length chunks
  /\ forall i chunk,
       nth_error chunks i = Some chunk ->
       (strip chunk = [] ->
        nth_error polyglot i = Some None /\ nth_error version i = Some None)
       /\ (strip chunk <> [] ->
           (exists r, nth_error polyglot i = Some (Some r))
           /\ (exists r, nth_error version i = Some (Some r))).
Proof.
  intros polyglot version. subst polyglot version.
  unfold polyglot_run, version_run. cbn [snd]. rewrite version_loop. cbn [app length].
  split; [now rewrite length_map, map_from_length|].
  split; [now rewrite length_map, map_from_length|].
  intros i chunk Hi.
  assert (Hp : nth_error (map snd (map_from (translate_chunk svc target) 0 chunks)) i
               = Some (snd (translate_chunk svc target i chunk))).
  { rewrite nth_error_map, (map_from_nth _ _ 0 i chunk Hi). reflexivity. }
  assert (Hv : nth_error (map snd (map_from (version_entry svc) 0 chunks)) i
               = Some (snd (version_entry svc i chunk))).
  { rewrite nth_error_map, (map_from_nth _ _ 0 i chunk Hi). reflexivity. }
  rewrite Hp, Hv.
  destruct (translate_chunk_exec svc target i chunk) as [Hp0 Hp1].
  destruct (version_entry_exec svc i chunk) as [Hv0 Hv1].
  split.
  - intros Hblank. now rewrite (Hp0 Hblank), (Hv0 Hblank).
  - intros Hne. destruct (Hp1 Hne) as (r & ->). destruct (Hv1 Hne) as (r' & ->). eauto.
Qed.

Lemma runs_keep_one_entry_per_chunk_witness :
  nth_error (snd (polyglot_run sample_services (py "r")
                    (chunk_code print_source print_body print_clusters))) 0
  = Some None
  /\ nth_error (snd (version_run sample_services
                       (chunk_code print_source print_body print_clusters))) 0
     = Some None.
Proof.
  apply (proj2 (proj2 (runs_keep_one_entry_per_chunk sample_services (py "r")
                         (chunk_code print_source print_body print_clusters)))
           0%nat []); reflexivity.
Defined.






(** ** The execution service *)









(** ** The formatter *)



(** ** The builder before the first definition *)

(** X23: the statements that come before the first function definition of a
    module leave no trace in the call graph: the calls they hold produce no
    node and no edge. *)
Theorem leading_statements_leave_no_trace (before rest : list stmt) :
  (forall st, In st before -> flat (ast st) = true) ->
  build_graph (before ++ rest) = build_graph rest.
Proof.
  intros Hflat. unfold build_graph, visit_module. rewrite fold_left_app.
  replace (fold_left (fun b st => visit (ast st) b) before new_builder)
    with new_builder; [reflexivity|].
  symmetry. rewrite visit_module_eq.
  apply (fold_visit_preserves (fun b => b = new_builder)); [|reflexivity].
  intros n Hn b ->. apply in_map_iff in Hn as (st & <- & Hst).
  apply visit_flat_idle; [now apply Hflat | reflexivity].
Qed.

Lemma leading_statements_leave_no_trace_witness :
  build_graph (script_body ++ print_body) = build_graph print_body.
Proof.
  apply (leading_statements_leave_no_trace script_body print_body).
  intros st [<-|[]]. reflexivity.
Defined.

(** ** The target languages across the modules *)


